(** * COBS (Consistent Overhead Byte Stuffing): the codec of [nth/cobs.h]

    A shallow embedding of the five entry points of the header
    (the two bulk encoders, the two bulk decoders, the streaming encoder
    [cobs_encoder_t] and the streaming decoder [cobs_decoder_t]) together
    with the properties of the wire format they share.

    Conventions of the embedding.
    - A byte held in memory (payload, frame, internal buffer) is a
      [Byte.byte].
    - A [uint8_t] local or field that the code computes with ([code],
      [block], [size]) is a [Z] in [0, 256); every C++ operation that may
      leave that range is followed by [wrap8].
    - A [size_t] and a pointer into a span are natural numbers (offsets from
      the start of the span); a span cannot be longer than the address
      space, so these never wrap.
    - A sink callback is modelled by the list of calls it receives, in
      order. *)

From Stdlib Require Import ZArith Lia.
From Stdlib.Strings Require Import Byte.
From stdpp Require Import base option list.

Open Scope Z_scope.

(** ** Bytes and 8-bit arithmetic *)

(** Value of a stored byte, as the [uint8_t] read from memory. *)
Definition u8 (b : byte) : Z := Z.of_N (Byte.to_N b).

(** Truncation of an integer result to [uint8_t]. *)
Definition wrap8 (z : Z) : Z := z mod 256.

(** The byte stored when a [uint8_t] value is written to memory. *)
Definition to_byte (z : Z) : byte :=
  match Byte.of_N (Z.to_N (wrap8 z)) with
  | Some b => b
  | None => x00
  end.

(** [!b] of the source. *)
Definition is_zero (b : byte) : bool := u8 b =? 0.

(** ** Bulk encoder, sink variant: [cobs_encode(in, cb)] *)

(** One call [cb(data, size)] of an encode sink: the [size] bytes at
    [data]. *)
Definition enc_call := list byte.

(** The lambda [write_chunk]: two sink calls, the code byte and the span
    [chunk, p) of the input, and the update of [total]. *)
Definition write_chunk (inp : list byte) (chunk : nat) (code : Z) (p : nat)
    (total : nat) : list enc_call * nat :=
  let chunk_size := (p - chunk)%nat in
  ([ [to_byte code]; take chunk_size (drop chunk inp) ],
   (total + (1 + chunk_size))%nat).

(** The [for] loop. [rest] is the input from [src_dat] to [src_end]; the
    result is the state at loop exit and the sink calls made. *)
Fixpoint encode_loop (inp rest : list byte) (src_dat chunk : nat) (code : Z)
    (total : nat) : (nat * Z * nat) * list enc_call :=
  match rest with
  | [] => ((chunk, code, total), [])
  | b :: rest' =>
      let '((chunk, code, total), tr1) :=
        if code =? 255 then
          let '(tr, total) := write_chunk inp chunk code src_dat total in
          ((src_dat, 1, total), tr)
        else ((chunk, code, total), []) in
      let '((chunk, code, total), tr2) :=
        if is_zero b then
          let '(tr, total) := write_chunk inp chunk code src_dat total in
          (((src_dat + 1)%nat, 1, total), tr)
        else ((chunk, wrap8 (code + 1), total), []) in
      let '(st, tr3) := encode_loop inp rest' (S src_dat) chunk code total in
      (st, tr1 ++ tr2 ++ tr3)
  end.

(** [cobs_encode(in, cb)]: returned total and the sink calls. *)
Definition cobs_encode_cb (inp : list byte) : nat * list enc_call :=
  let '((chunk, code, total), tr) := encode_loop inp inp 0 0 1 0 in
  let '(tr', total) := write_chunk inp chunk code (length inp) total in
  (total, tr ++ tr').

(** The bytes a sink has received. *)
Definition sunk (tr : list enc_call) : list byte := concat tr.

(** ** Bulk encoder, bounded-buffer variant: [cobs_encode(in, out)] *)

(** A guarded store [if (p < dst_end) *p = v]. *)
Definition store_if (dst_end p : nat) (v : byte) (out : list byte) : list byte :=
  if (p <? dst_end)%nat then <[p := v]> out else out.

(** A guarded advance [if (p < dst_end) p++]. *)
Definition advance_if (dst_end p : nat) : nat :=
  if (p <? dst_end)%nat then S p else p.

(** The [while] loop. [rest] is the input from [src] to [end]; [dst_len]
    and [dst_dat] are offsets into [out], [dst_end] is its capacity. *)
Fixpoint encode_buf_loop (dst_end : nat) (rest : list byte) (out : list byte)
    (dst_len dst_dat : nat) (code : Z) (required : nat)
    : list byte * nat * Z * nat :=
  match rest with
  | [] => (out, dst_len, code, required)
  | b :: rest' =>
      let '(out, dst_dat, code, required) :=
        if negb (is_zero b) then
          (store_if dst_end dst_dat b out, advance_if dst_end dst_dat,
           wrap8 (code + 1), S required)
        else (out, dst_dat, code, required) in
      if (code =? 255) || is_zero b then
        let out := store_if dst_end dst_len (to_byte code) out in
        let dst_len := dst_dat in
        let code := 1 in
        let '(dst_dat, required) :=
          if is_zero b || negb (bool_decide (rest' = [])) then
            (advance_if dst_end dst_dat, S required)
          else (dst_dat, required) in
        encode_buf_loop dst_end rest' out dst_len dst_dat code required
      else
        encode_buf_loop dst_end rest' out dst_len dst_dat code required
  end.

(** [cobs_encode(in, out)]: returned required size and final contents of
    [out]. *)
Definition cobs_encode_buf (inp out : list byte) : nat * list byte :=
  let dst_end := length out in
  let '(out, dst_len, code, required) :=
    encode_buf_loop dst_end inp out 0 1 1 1 in
  (required, store_if dst_end dst_len (to_byte code) out).

(** ** Streaming encoder: [cobs_encoder_t] *)

(** The object is its array [buf[256]]; [buf[0]] holds the count of pending
    data bytes. An access outside the array is undefined behaviour: [None]. *)
Definition encoder := list byte.

Definition encoder_init : encoder := replicate 256 x00.

(** [buf[i] = v] *)
Definition store (i : nat) (v : byte) (buf : list byte) : option (list byte) :=
  if (i <? length buf)%nat then Some (<[i := v]> buf) else None.

(** The [n] bytes at [buf], as passed to a sink. *)
Definition load_span (n : nat) (buf : list byte) : option (list byte) :=
  if (n <=? length buf)%nat then Some (take n buf) else None.

Definition enc_reset (buf : encoder) : option encoder := store 0 x00 buf.

(** [flush]: [cb(buf, ++buf[0]); reset();] *)
Definition enc_flush (buf : encoder) : option (encoder * list enc_call) :=
  n ← buf !! 0%nat;
  let n' := wrap8 (u8 n + 1) in
  buf ← store 0 (to_byte n') buf;
  call ← load_span (Z.to_nat n') buf;
  buf ← enc_reset buf;
  Some (buf, [call]).

(** [step] *)
Definition enc_step (b : byte) (buf : encoder) : option (encoder * list enc_call) :=
  n ← buf !! 0%nat;
  '(buf, tr1) ← (if u8 n =? 254 then enc_flush buf else Some (buf, []));
  if is_zero b then
    '(buf, tr2) ← enc_flush buf;
    Some (buf, tr1 ++ tr2)
  else
    n ← buf !! 0%nat;
    buf ← store 0 (to_byte (wrap8 (u8 n + 1))) buf;
    buf ← store (1 + Z.to_nat (u8 n)) b buf;
    Some (buf, tr1).

(** [sink]: [for (auto b : in) step(b, wr);] *)
Fixpoint enc_sink (inp : list byte) (buf : encoder) : option (encoder * list enc_call) :=
  match inp with
  | [] => Some (buf, [])
  | b :: inp' =>
      '(buf, tr1) ← enc_step b buf;
      '(buf, tr2) ← enc_sink inp' buf;
      Some (buf, tr1 ++ tr2)
  end.

(** [stop]: [buf[1 + buf[0]++] = 0; cb(buf, buf[0] + 1); reset();] *)
Definition enc_stop (buf : encoder) : option (encoder * list enc_call) :=
  n ← buf !! 0%nat;
  buf ← store 0 (to_byte (wrap8 (u8 n + 1))) buf;
  buf ← store (1 + Z.to_nat (u8 n)) x00 buf;
  n' ← buf !! 0%nat;
  call ← load_span (Z.to_nat (u8 n' + 1)) buf;
  buf ← enc_reset buf;
  Some (buf, [call]).

(** ** Decode sinks *)

(** One call [cb(data, size, left)] of a decode sink. [dc_data] is the
    [size] bytes at [data], or [None] when [data] is [nullptr]. *)
Record dec_call := DecCall {
  dc_data : option (list byte);
  dc_size : nat;
  dc_left : nat
}.

(** The payload bytes a decode sink has received. *)
Definition received (tr : list dec_call) : list byte :=
  concat (map (λ c, default [] (dc_data c)) tr).

(** Prepend a sink call to the outcome of the rest of a computation. *)
Definition emit {A} (c : dec_call) (r : option (A * list dec_call))
    : option (A * list dec_call) :=
  '(a, tr) ← r; Some (a, c :: tr).

(** ** Bulk decoder, sink variant: [cobs_decode(in, cb)] *)

(** The [while] loop. [rest] is the input from [src] to [end]. The result
    is [block] and [total] at loop exit with the sink calls made. One unit
    of [fuel] is spent per iteration; [None] means the fuel ran out. *)
Fixpoint decode_loop (fuel : nat) (rest : list byte) (code block : Z)
    (total : nat) : option ((Z * nat) * list dec_call) :=
  match fuel with
  | O => None
  | S fuel =>
      match rest with
      | [] => Some ((block, total), [])
      | b :: rest' =>
          if negb (block =? 0) then
            let avail := length rest in
            let chunk := if block <? Z.of_nat avail then Z.to_nat block else avail in
            if negb (chunk =? 0)%nat then
              let call := DecCall (Some (take chunk rest)) chunk 0 in
              let block := wrap8 (block - Z.of_nat chunk) in
              let total := (total + chunk)%nat in
              let rest := drop chunk rest in
              let block := if negb (block =? 0) then wrap8 (block - 1) else block in
              emit call (decode_loop fuel rest code block total)
            else
              let block := if negb (block =? 0) then wrap8 (block - 1) else block in
              decode_loop fuel rest code block total
          else
            let block := u8 b in
            let zero_call := negb (block =? 0) && negb (code =? 255) in
            let total := if zero_call then S total else total in
            let code := block in
            let r :=
              if code =? 0 then Some ((block, total), [])
              else
                let block := if negb (block =? 0) then wrap8 (block - 1) else block in
                decode_loop fuel rest' code block total in
            if zero_call then emit (DecCall (Some [x00]) 1 0) r else r
      end
  end.

(** [cobs_decode(in, cb)]: returned size and the sink calls. Every
    iteration consumes at least one input byte, so [length in] iterations
    and the final test suffice. *)
Definition cobs_decode_cb (inp : list byte) : option (nat * list dec_call) :=
  '((block, total), tr) ← decode_loop (S (length inp)) inp 255 0 0;
  if negb (block =? 0) then
    Some (0%nat, tr ++ [DecCall None 0 (Z.to_nat block)])
  else Some (total, tr).

(** ** Bulk decoder, bounded-buffer variant: [cobs_decode(in, out)] *)

(** The [while] loop; [dst] is an offset into [out], [dst_end] its
    capacity. The result is the state at loop exit. *)
Fixpoint decode_buf_loop (dst_end : nat) (rest : list byte) (out : list byte)
    (dst : nat) (code block : Z) (required : nat) : list byte * Z * nat :=
  match rest with
  | [] => (out, block, required)
  | b :: rest' =>
      if negb (block =? 0) then
        let out := store_if dst_end dst b out in
        let dst := advance_if dst_end dst in
        decode_buf_loop dst_end rest' out dst code (wrap8 (block - 1)) (S required)
      else
        let block := u8 b in
        let '(out, dst, required) :=
          if negb (block =? 0) && negb (code =? 255) then
            (store_if dst_end dst x00 out, advance_if dst_end dst, S required)
          else (out, dst, required) in
        let code := block in
        if code =? 0 then (out, block, required)
        else decode_buf_loop dst_end rest' out dst code (wrap8 (block - 1)) required
  end.

(** [cobs_decode(in, out)]: returned size and final contents of [out]. *)
Definition cobs_decode_buf (inp out : list byte) : nat * list byte :=
  let '(out, block, required) :=
    decode_buf_loop (length out) inp out 0 255 0 0 in
  (if negb (block =? 0) then 0%nat else required, out).

(** ** Streaming decoder: [cobs_decoder_t] *)

Record decoder := Decoder {
  d_size : Z;
  d_code : Z;
  d_buf : list byte
}.

Definition decoder_init : decoder := Decoder 0 0 (replicate 255 x00).

Definition dec_reset (d : decoder) : decoder := Decoder 0 0 (d_buf d).

(** [stop]: [cb(buf, size, code ? code - size - 1u : 0u); reset();]. The
    subtraction is done in [unsigned]. *)
Definition dec_stop (d : decoder) : option (decoder * list dec_call) :=
  data ← load_span (Z.to_nat (d_size d)) (d_buf d);
  let left := if negb (d_code d =? 0)
              then (d_code d - d_size d - 1) mod 2 ^ 32 else 0 in
  Some (dec_reset d, [DecCall (Some data) (Z.to_nat (d_size d)) (Z.to_nat left)]).

(** [step] *)
Definition dec_step (b : byte) (d : decoder) : option (decoder * list dec_call) :=
  if u8 b =? 0 then dec_stop d
  else if (d_code d =? 0) || (d_size d + 1 =? d_code d) then
    '(size, buf) ←
      (if negb (d_code d =? 0) && negb (d_code d =? 255) then
         buf ← store (Z.to_nat (d_size d)) x00 (d_buf d);
         Some (wrap8 (d_size d + 1), buf)
       else Some (d_size d, d_buf d));
    data ← load_span (Z.to_nat size) buf;
    Some (Decoder 0 (u8 b) buf, [DecCall (Some data) (Z.to_nat size) 0])
  else
    buf ← store (Z.to_nat (d_size d)) b (d_buf d);
    Some (Decoder (wrap8 (d_size d + 1)) (d_code d) buf, []).

(** [sink]: [for (auto b : in) step(b, wr);] *)
Fixpoint dec_sink (inp : list byte) (d : decoder) : option (decoder * list dec_call) :=
  match inp with
  | [] => Some (d, [])
  | b :: inp' =>
      '(d, tr1) ← dec_step b d;
      '(d, tr2) ← dec_sink inp' d;
      Some (d, tr1 ++ tr2)
  end.

(** ** The wire format

    The frame grammar of the format: a frame is a sequence of blocks, a
    block is a code byte followed by [code - 1] data bytes. These
    definitions are the yardstick against which the five implementations
    are measured. *)

(** A block holding the data bytes [d]. *)
Definition blk (d : list byte) : list byte :=
  to_byte (Z.of_nat (S (length d))) :: d.

(** The wire bytes of a sequence of blocks. *)
Definition wire (ds : list (list byte)) : list byte := concat (map blk ds).

(** A well-formed block's data: at most 254 bytes, none of them zero. *)
Definition block_ok (d : list byte) : Prop :=
  (length d <= 254)%nat /\ Forall (λ b, b <> x00) d.

(** The payload a sequence of blocks stands for, when the block before it
    had code [prev]: a zero is implied after every block whose code is not
    [0xFF], except after the last. *)
Fixpoint unstuff (prev : Z) (ds : list (list byte)) : list byte :=
  match ds with
  | [] => []
  | d :: ds' =>
      (if prev =? 255 then [] else [x00]) ++ d
        ++ unstuff (Z.of_nat (S (length d))) ds'
  end.

(** The blocks of a payload, given the data [pend] pending in the current
    block: a full block is closed when the next byte arrives, any block is
    closed by a zero byte, and the last block is closed by the end of the
    payload. *)
Fixpoint blocks (pend rest : list byte) : list (list byte) :=
  match rest with
  | [] => [pend]
  | b :: rest' =>
      if is_zero b then
        (if (length pend =? 254)%nat then [pend; []] else [pend])
          ++ blocks [] rest'
      else if (length pend =? 254)%nat then pend :: blocks [b] rest'
      else blocks (pend ++ [b]) rest'
  end.

(** The COBS encoding of a payload. *)
Definition cobs (p : list byte) : list byte := wire (blocks [] p).

(** ** Notions used to state what the loops compute *)

(** The sink calls that transmit a sequence of blocks: code, then data. *)
Definition chunk_calls (ds : list (list byte)) : list enc_call :=
  concat (map (λ d, [[to_byte (Z.of_nat (S (length d)))]; d]) ds).

(** The last [write_chunk] and the return, applied to a loop outcome. *)
Definition encode_finish (inp : list byte)
    (r : (nat * Z * nat) * list enc_call) : nat * list enc_call :=
  let '((chunk, code, total), tr) := r in
  let '(tr', total) := write_chunk inp chunk code (length inp) total in
  (total, tr ++ tr').

(** The streaming encoder holds the pending data [pend]: the count in
    [buf[0]], the bytes from [buf[1]] on. *)
Definition enc_state (buf : encoder) (pend : list byte) : Prop :=
  exists tl, buf = to_byte (Z.of_nat (length pend)) :: tl
    /\ length tl = 255%nat
    /\ (length pend <= 254)%nat
    /\ take (length pend) tl = pend.

(** A frame tail: nothing, or the delimiter followed by anything. *)
Definition frame_end (tail : list byte) : Prop :=
  tail = [] \/ exists t, tail = x00 :: t.

(** The buffer [out0] after the image [M] was written over it, as far as it
    fits. *)
Definition overlay (M out0 : list byte) : list byte :=
  take (length out0) M ++ drop (length M) out0.

(** The offset [p] kept by the code stands for the ideal offset [n]: they
    agree as long as either is inside the buffer. *)
Definition sat (cap p n : nat) : Prop :=
  ((p < cap)%nat -> p = n) /\ ((n < cap)%nat -> p = n).

(** Whether the last block of the encoding is a full one. *)
Definition ends_full (pend rest : list byte) : bool :=
  match last (blocks pend rest) with
  | Some d => (length d =? 254)%nat
  | None => false
  end.

(** The byte the bounded-buffer encoder stores just after the encoding when
    the last block is full. *)
Definition stray (pend rest : list byte) : list byte :=
  if ends_full pend rest then [x01] else [].

(** The last store and the return, applied to a loop outcome. *)
Definition encode_buf_finish (dst_end : nat)
    (r : list byte * nat * Z * nat) : nat * list byte :=
  let '(out, dst_len, code, required) := r in
  (required, store_if dst_end dst_len (to_byte code) out).

(** The state invariant of [cobs_decoder_t]. *)
Definition dec_inv (d : decoder) : Prop :=
  length (d_buf d) = 255%nat
  /\ 0 <= d_code d < 256
  /\ 0 <= d_size d
  /\ (d_code d = 0 -> d_size d = 0)
  /\ (0 < d_code d -> d_size d <= d_code d - 1).

(** The [left] argument computed by [stop]. *)
Definition dec_left (d : decoder) : nat :=
  Z.to_nat (if negb (d_code d =? 0) then d_code d - d_size d - 1 else 0).

(** A delimiterless frame is well formed when it is a sequence of complete
    blocks. *)
Definition wf_frame (inp : list byte) : Prop :=
  exists ds, Forall block_ok ds /\ inp = wire ds.

(** A frame is truncated when, after some complete blocks, a code byte
    declares more data bytes than remain. *)
Definition truncated (inp : list byte) : Prop :=
  exists ds c data,
    Forall block_ok ds /\ inp = wire ds ++ c :: data
    /\ Z.of_nat (length data) < u8 c - 1.

(** What the streaming decoder, in state [(code, size)], has consumed. *)
Definition parsed (inp : list byte) (code size : Z) : Prop :=
  (inp = [] /\ code = 0 /\ size = 0)
  \/ exists ds c data,
       Forall block_ok ds /\ inp = wire ds ++ c :: data
       /\ code = u8 c /\ u8 c <> 0
       /\ size = Z.of_nat (length data) /\ size <= code - 1
       /\ Forall (λ b, b <> x00) data.

(** Prepend sink calls to the outcome of the rest of a computation. *)
Definition prepend {A} (tr : list dec_call) (r : option (A * list dec_call))
    : option (A * list dec_call) :=
  '(a, tr') ← r; Some (a, tr ++ tr').

(** The count left in [block] when the sink decoder reaches the end of an
    input whose last code byte [c] is followed by the data bytes [data],
    fewer than declared. *)
Definition reported (c : byte) (data : list byte) : Z :=
  let missing := u8 c - 1 - Z.of_nat (length data) in
  match data with
  | [] => missing
  | _ => missing - 1
  end.

(** ** Callers: a stream cut into fragments

    A transport hands the streaming objects its bytes in pieces, one call
    of [sink] for each piece. *)

(** [enc.sink(f1, cb); enc.sink(f2, cb); ...] *)
Fixpoint enc_feed (frags : list (list byte)) (buf : encoder)
    : option (encoder * list enc_call) :=
  match frags with
  | [] => Some (buf, [])
  | f :: frags' =>
      '(buf, tr1) ← enc_sink f buf;
      '(buf, tr2) ← enc_feed frags' buf;
      Some (buf, tr1 ++ tr2)
  end.

(** [dec.sink(f1, cb); dec.sink(f2, cb); ...] *)
Fixpoint dec_feed (frags : list (list byte)) (d : decoder)
    : option (decoder * list dec_call) :=
  match frags with
  | [] => Some (d, [])
  | f :: frags' =>
      '(d, tr1) ← dec_sink f d;
      '(d, tr2) ← dec_feed frags' d;
      Some (d, tr1 ++ tr2)
  end.

(** ** Notions used to state what the streaming decoder holds *)

(** The data bytes buffered for the block being received. *)
Definition held (d : decoder) : list byte :=
  take (Z.to_nat (d_size d)) (d_buf d).

(** The code that decides whether a zero is implied before the next block:
    none before the first block of a frame. *)
Definition prev_code (d : decoder) : Z :=
  if d_code d =? 0 then 255 else d_code d.

(** The decoder expects a code byte next. *)
Definition at_boundary (d : decoder) : Prop :=
  d_code d = 0 \/ d_size d + 1 = d_code d.

(** What a sink call carries when nothing is reported missing. *)
Definition data_call (c : dec_call) : Prop :=
  dc_left c = 0%nat
  /\ exists x, dc_data c = Some x /\ dc_size c = length x.

(** * Properties *)

(** ** Proof steps that recur *)

(** Settle a boolean test that the context refutes. *)
Local Ltac z_ne a b :=
  replace (a =? b) with false
    by (symmetry; apply Z.eqb_neq; first [lia | simpl in *; lia]).

Local Ltac n_ne a b :=
  replace (a =? b)%nat with false
    by (symmetry; apply Nat.eqb_neq; first [lia | simpl in *; lia]).

(** A sink call that carries data and reports nothing missing. *)
Local Ltac call_ok :=
  apply Forall_cons_2; [by split; [|eexists] | try done; try apply Forall_nil_2].

(** ** Bytes *)

Lemma u8_range b : 0 <= u8 b < 256.
Proof.
  unfold u8. pose proof (Byte.to_N_bounded b). lia.
Qed.

Lemma to_byte_u8 b : to_byte (u8 b) = b.
Proof.
  unfold to_byte, wrap8. pose proof (u8_range b).
  rewrite Z.mod_small by lia. unfold u8.
  rewrite N2Z.id, Byte.of_to_N. reflexivity.
Qed.

Lemma u8_to_byte z : u8 (to_byte z) = wrap8 z.
Proof.
  unfold to_byte.
  assert (Hr : 0 <= wrap8 z < 256) by (unfold wrap8; apply Z.mod_pos_bound; lia).
  destruct (Byte.of_N (Z.to_N (wrap8 z))) as [b|] eqn:E.
  - apply Byte.to_of_N in E. unfold u8. rewrite E. lia.
  - apply Byte.of_N_None_iff in E. lia.
Qed.

Lemma u8_to_byte_small z : 0 <= z < 256 -> u8 (to_byte z) = z.
Proof. intros. rewrite u8_to_byte. unfold wrap8. apply Z.mod_small. lia. Qed.

Lemma wrap8_small z : 0 <= z < 256 -> wrap8 z = z.
Proof. intros. unfold wrap8. apply Z.mod_small. lia. Qed.

Lemma u8_inj a b : u8 a = u8 b -> a = b.
Proof. intros H. rewrite <- (to_byte_u8 a), <- (to_byte_u8 b), H. reflexivity. Qed.

Lemma u8_x00 : u8 x00 = 0.
Proof. reflexivity. Qed.

Lemma is_zero_true b : is_zero b = true <-> b = x00.
Proof.
  unfold is_zero. rewrite Z.eqb_eq. split.
  - intros H. apply u8_inj. rewrite H. reflexivity.
  - intros ->. reflexivity.
Qed.

Lemma is_zero_false b : is_zero b = false <-> b <> x00.
Proof.
  rewrite <- is_zero_true. destruct (is_zero b); split; congruence.
Qed.

(** ** Blocks *)

Lemma wire_cons d ds : wire (d :: ds) = blk d ++ wire ds.
Proof. reflexivity. Qed.

Lemma wire_app ds1 ds2 : wire (ds1 ++ ds2) = wire ds1 ++ wire ds2.
Proof. unfold wire. rewrite map_app, concat_app. reflexivity. Qed.

Lemma length_blk d : length (blk d) = S (length d).
Proof. reflexivity. Qed.

Lemma blocks_full_cons pend b rest :
  length pend = 254%nat ->
  blocks pend (b :: rest) = pend :: blocks [] (b :: rest).
Proof.
  intros H. simpl. rewrite H. simpl.
  destruct (is_zero b); reflexivity.
Qed.

Lemma blocks_ok rest : ∀ pend,
  block_ok pend -> Forall block_ok (blocks pend rest).
Proof.
  assert (Hnil : block_ok []) by (split; [simpl; lia | constructor]).
  induction rest as [|b rest IH]; intros pend Hp; simpl.
  - apply Forall_cons_2; [done|]. apply Forall_nil_2.
  - destruct (is_zero b) eqn:Hb.
    + apply Forall_app. split; [|by apply IH].
      destruct (length pend =? 254)%nat.
      * apply Forall_cons_2; [done|]. apply Forall_cons_2; [done|]. apply Forall_nil_2.
      * apply Forall_cons_2; [done|]. apply Forall_nil_2.
    + apply is_zero_false in Hb.
      destruct (length pend =? 254)%nat eqn:Hl.
      * apply Forall_cons_2; [done|]. apply IH. split; [simpl; lia|].
        apply Forall_cons_2; [done|]. apply Forall_nil_2.
      * apply Nat.eqb_neq in Hl. destruct Hp as [Hlen Hnz].
        apply IH. split.
        -- rewrite length_app. simpl. lia.
        -- apply Forall_app. split; [done|].
           apply Forall_cons_2; [done|]. apply Forall_nil_2.
Qed.

Lemma blocks_nonempty rest : ∀ pend, blocks pend rest <> [].
Proof.
  induction rest as [|b rest IH]; intros pend; simpl; [done|].
  destruct (is_zero b); destruct (length pend =? 254)%nat; simpl;
    try done; apply IH.
Qed.

(** Un-stuffing the blocks of a payload gives the payload back. *)
Lemma unstuff_blocks rest : ∀ prev pend,
  unstuff prev (blocks pend rest)
  = (if prev =? 255 then [] else [x00]) ++ pend ++ rest.
Proof.
  induction rest as [|b rest IH]; intros prev pend; simpl.
  - by rewrite !app_nil_r.
  - destruct (is_zero b) eqn:Hb.
    + apply is_zero_true in Hb. subst b.
      destruct (length pend =? 254)%nat eqn:Hl; simpl; rewrite IH.
      * apply Nat.eqb_eq in Hl. rewrite Hl. simpl. reflexivity.
      * apply Nat.eqb_neq in Hl.
        z_ne (Z.of_nat (S (length pend))) 255.
        reflexivity.
    + destruct (length pend =? 254)%nat eqn:Hl; simpl.
      * apply Nat.eqb_eq in Hl. rewrite IH, Hl. simpl. reflexivity.
      * rewrite IH. by rewrite <- !app_assoc.
Qed.

Lemma unstuff_cobs p : unstuff 255 (blocks [] p) = p.
Proof. rewrite unstuff_blocks. reflexivity. Qed.

(** ** The sink encoder produces the blocks of its input *)

Lemma sunk_chunk_calls ds : sunk (chunk_calls ds) = wire ds.
Proof.
  unfold sunk, chunk_calls, wire.
  induction ds as [|d ds IH]; simpl; [done|].
  rewrite IH. reflexivity.
Qed.

Lemma chunk_calls_cons d ds :
  chunk_calls (d :: ds)
  = [to_byte (Z.of_nat (S (length d)))] :: d :: chunk_calls ds.
Proof. reflexivity. Qed.

Lemma chunk_calls_app ds1 ds2 :
  chunk_calls (ds1 ++ ds2) = chunk_calls ds1 ++ chunk_calls ds2.
Proof. unfold chunk_calls. by rewrite map_app, concat_app. Qed.

Lemma encode_finish_prepend inp tr1 tr2 r :
  encode_finish inp (let '(st, tr3) := r in (st, tr1 ++ tr2 ++ tr3))
  = let '(t, tr') := encode_finish inp r in (t, tr1 ++ tr2 ++ tr').
Proof.
  destruct r as [[[chunk code] total] tr3]. simpl.
  by rewrite <- !app_assoc.
Qed.

Lemma drop_cons_inv {A} (l : list A) n x rest :
  drop n l = x :: rest -> l !! n = Some x /\ drop (S n) l = rest.
Proof.
  intros H. split.
  - pose proof (lookup_drop l n 0) as E.
    rewrite H, Nat.add_0_r in E. by rewrite <- E.
  - replace (S n) with (n + 1)%nat by lia. rewrite <- drop_drop, H. reflexivity.
Qed.

Lemma encode_loop_blocks rest : ∀ inp src_dat chunk code total,
  drop src_dat inp = rest ->
  (chunk <= src_dat <= length inp)%nat ->
  (src_dat - chunk <= 254)%nat ->
  code = Z.of_nat (S (src_dat - chunk)) ->
  let pend := take (src_dat - chunk) (drop chunk inp) in
  encode_finish inp (encode_loop inp rest src_dat chunk code total)
  = ((total + length (wire (blocks pend rest)))%nat,
     chunk_calls (blocks pend rest)).
Proof.
  induction rest as [|b rest IH]; intros inp src_dat chunk code total Hd Hle Hn Hc pend.
  - simpl. assert (Hlen : (length inp <= src_dat)%nat).
    { destruct (decide (length inp <= src_dat)%nat) as [|Hlt]; [done|].
      apply (f_equal length) in Hd. rewrite length_drop in Hd. simpl in Hd. lia. }
    assert (Hp : take (length inp - chunk) (drop chunk inp) = pend).
    { unfold pend. rewrite !take_ge; [done| |]; rewrite length_drop; lia. }
    rewrite Hp. unfold wire. simpl. rewrite app_nil_r. simpl.
    assert (Hpl : length pend = (length inp - chunk)%nat).
    { rewrite <- Hp at 1. rewrite length_take, length_drop. lia. }
    rewrite Hpl.
    assert (Hsd : (length inp - chunk = src_dat - chunk)%nat) by lia.
    unfold chunk_calls. simpl. rewrite Hpl, Hsd, <- Hc. reflexivity.
  - apply drop_cons_inv in Hd as [Hb Hd].
    pose proof (lookup_lt_Some _ _ _ Hb) as Hlt.
    assert (Hpl : length pend = (src_dat - chunk)%nat).
    { unfold pend. rewrite length_take, length_drop.
      apply lookup_lt_Some in Hb. lia. }
    assert (Hsnoc : take (S src_dat - chunk) (drop chunk inp) = pend ++ [b]).
    { replace (S src_dat - chunk)%nat with (S (src_dat - chunk)) by lia.
      unfold pend. apply take_S_r. rewrite lookup_drop.
      replace (chunk + (src_dat - chunk))%nat with src_dat by lia. done. }
    cbn [encode_loop blocks].
    destruct (code =? 255) eqn:Hff.
    + apply Z.eqb_eq in Hff.
      assert (Hfull : (src_dat - chunk)%nat = 254%nat) by lia.
      rewrite Hpl, Hfull. simpl (254 =? 254)%nat. cbv iota.
      unfold write_chunk at 1. cbv beta iota zeta.
      fold pend. rewrite Hfull.
      destruct (is_zero b) eqn:Hz.
      * unfold write_chunk at 1. cbv beta iota zeta.
        rewrite encode_finish_prepend.
        rewrite (IH inp (S src_dat) (src_dat + 1)%nat 1 _ Hd) by lia.
        replace (S src_dat - (src_dat + 1))%nat with 0%nat by lia.
        rewrite Nat.sub_diag, !take_0.
        rewrite chunk_calls_app, wire_app, length_app.
        unfold chunk_calls at 2, wire at 2. simpl.
        rewrite length_app, Hpl, Hfull, Hff. simpl.
        f_equal. lia.
      * rewrite encode_finish_prepend.
        rewrite (IH inp (S src_dat) src_dat (wrap8 (1 + 1)) _ Hd); try lia.
        2:{ replace (S src_dat - src_dat)%nat with 1%nat by lia. reflexivity. }
        replace (S src_dat - src_dat)%nat with 1%nat by lia.
        assert (H1 : take 1 (drop src_dat inp) = [b]).
        { erewrite drop_S by done. reflexivity. }
        rewrite H1, chunk_calls_cons, wire_cons, length_app, length_blk.
        rewrite Hpl, Hfull, Hff. f_equal. lia.
    + apply Z.eqb_neq in Hff.
      assert (Hnf : (src_dat - chunk)%nat <> 254%nat) by lia.
      rewrite Hpl. apply Nat.eqb_neq in Hnf. rewrite Hnf.
      apply Nat.eqb_neq in Hnf.
      destruct (is_zero b) eqn:Hz.
      * unfold write_chunk at 1. cbv beta iota zeta. fold pend.
        rewrite encode_finish_prepend.
        rewrite (IH inp (S src_dat) (src_dat + 1)%nat 1 _ Hd) by lia.
        replace (S src_dat - (src_dat + 1))%nat with 0%nat by lia.
        rewrite take_0. cbn [app].
        rewrite chunk_calls_cons, wire_cons, length_app, length_blk.
        rewrite Hpl, <- Hc. f_equal. lia.
      * rewrite encode_finish_prepend.
        rewrite (IH inp (S src_dat) chunk (wrap8 (code + 1)) _ Hd); try lia.
        2:{ rewrite wrap8_small by lia. lia. }
        rewrite Hsnoc. reflexivity.
Qed.

Lemma cobs_encode_cb_blocks inp :
  cobs_encode_cb inp = (length (cobs inp), chunk_calls (blocks [] inp)).
Proof.
  change (cobs_encode_cb inp)
    with (encode_finish inp (encode_loop inp inp 0 0 1 0)).
  rewrite (encode_loop_blocks inp inp 0 0 1 0); try done; simpl; lia.
Qed.

(** ** The streaming encoder produces the blocks of its input *)

Lemma insert_cons_0 {A} (v c : A) l : <[0%nat := v]> (c :: l) = v :: l.
Proof. reflexivity. Qed.

Lemma insert_cons_S {A} i (v c : A) l :
  <[S i := v]> (c :: l) = c :: <[i := v]> l.
Proof. reflexivity. Qed.

Lemma store_lt i v (buf : list byte) :
  (i < length buf)%nat -> store i v buf = Some (<[i := v]> buf).
Proof.
  intros H. unfold store. apply Nat.ltb_lt in H. by rewrite H.
Qed.

Lemma load_span_le n (buf : list byte) :
  (n <= length buf)%nat -> load_span n buf = Some (take n buf).
Proof.
  intros H. unfold load_span. apply Nat.leb_le in H. by rewrite H.
Qed.

Lemma enc_state_nil tl : length tl = 255%nat -> enc_state (x00 :: tl) [].
Proof.
  intros Hl. exists tl. split; [done|]. split; [done|].
  split; [simpl; lia|]. by rewrite take_0.
Qed.

Lemma enc_state_reset buf :
  length buf = 256%nat ->
  exists buf', enc_reset buf = Some buf' /\ enc_state buf' [].
Proof.
  intros Hl. destruct buf as [|c tl]; [done|].
  exists (x00 :: tl). split; [done|].
  apply enc_state_nil. simpl in Hl. lia.
Qed.

Lemma enc_flush_spec buf pend :
  enc_state buf pend ->
  exists buf', enc_flush buf = Some (buf', [blk pend]) /\ enc_state buf' [].
Proof.
  intros (tl & -> & Hl & Hp & Ht).
  exists (x00 :: tl). split.
  - unfold enc_flush. cbn [lookup list_lookup mbind option_bind].
    rewrite u8_to_byte_small, wrap8_small by lia.
    rewrite store_lt by (simpl; lia). cbn [mbind option_bind list_insert insert].
    rewrite load_span_le by (simpl; lia). cbn [mbind option_bind].
    replace (Z.to_nat (Z.of_nat (length pend) + 1)) with (S (length pend)) by lia.
    cbn [take]. rewrite Ht. unfold blk.
    replace (Z.of_nat (S (length pend))) with (Z.of_nat (length pend) + 1) by lia.
    reflexivity.
  - by apply enc_state_nil.
Qed.

Lemma enc_append_spec b buf pend (tr : list enc_call) :
  enc_state buf pend -> (length pend < 254)%nat ->
  exists buf',
    (n ← buf !! 0%nat;
     buf ← store 0 (to_byte (wrap8 (u8 n + 1))) buf;
     buf ← store (1 + Z.to_nat (u8 n)) b buf;
     Some (buf, tr)) = Some (buf', tr)
    /\ enc_state buf' (pend ++ [b]).
Proof.
  intros (tl & -> & Hl & Hp & Ht) Hlt.
  exists (to_byte (Z.of_nat (length (pend ++ [b]))) :: <[length pend := b]> tl).
  split.
  - cbn [lookup list_lookup mbind option_bind].
    rewrite u8_to_byte_small, wrap8_small by lia.
    rewrite store_lt by (simpl; lia). cbn [mbind option_bind list_insert insert].
    rewrite store_lt by (simpl; lia). cbn [mbind option_bind].
    rewrite Nat2Z.id. cbn [Nat.add list_insert insert].
    rewrite length_app. simpl length.
    replace (Z.of_nat (length pend + 1)) with (Z.of_nat (length pend) + 1) by lia.
    reflexivity.
  - eexists. split; [done|]. rewrite length_insert, length_app. simpl length.
    split; [done|]. split; [lia|].
    replace (length pend + 1)%nat with (S (length pend)) by lia.
    erewrite take_S_r by (apply list_lookup_insert_eq; lia).
    rewrite take_insert_ge by lia. by rewrite Ht.
Qed.

Lemma enc_step_spec b buf pend :
  enc_state buf pend ->
  exists buf' ds pend',
    enc_step b buf = Some (buf', map blk ds)
    /\ enc_state buf' pend'
    /\ ∀ rest, blocks pend (b :: rest) = ds ++ blocks pend' rest.
Proof.
  intros Hst.
  pose proof Hst as (tl & Hbuf & Hl & Hp & Ht).
  assert (H0 : buf !! 0%nat = Some (to_byte (Z.of_nat (length pend))))
    by (by rewrite Hbuf).
  assert (Hstep : enc_step b buf =
    '(buf, tr1) ← (if Z.of_nat (length pend) =? 254
                   then enc_flush buf else Some (buf, []));
    if is_zero b then
      '(buf, tr2) ← enc_flush buf; Some (buf, tr1 ++ tr2)
    else
      n ← buf !! 0%nat;
      buf ← store 0 (to_byte (wrap8 (u8 n + 1))) buf;
      buf ← store (1 + Z.to_nat (u8 n)) b buf;
      Some (buf, tr1)).
  { unfold enc_step. rewrite H0. cbn [mbind option_bind].
    by rewrite u8_to_byte_small by lia. }
  rewrite Hstep. clear Hstep.
  destruct (Z.of_nat (length pend) =? 254) eqn:Hfull.
  - apply Z.eqb_eq in Hfull.
    assert (Hlen : length pend = 254%nat) by lia.
    destruct (enc_flush_spec _ _ Hst) as (buf1 & E1 & Hst1).
    destruct (is_zero b) eqn:Hz.
    + destruct (enc_flush_spec _ _ Hst1) as (buf2 & E2 & Hst2).
      exists buf2, [pend; []], []. split.
      { rewrite E1. cbn [mbind option_bind]. by (exact E2 || rewrite E2). }
      split; [done|]. intros rest. simpl. by rewrite Hz, Hlen.
    + destruct (enc_append_spec b _ _ [blk pend] Hst1) as (buf2 & E2 & Hst2);
        [simpl; lia|].
      exists buf2, [pend], [b]. split.
      { rewrite E1. cbn [mbind option_bind]. by (exact E2 || rewrite E2). }
      split; [done|]. intros rest. simpl. by rewrite Hz, Hlen.
  - apply Z.eqb_neq in Hfull.
    assert (Hlen : (length pend =? 254)%nat = false) by (apply Nat.eqb_neq; lia).
    destruct (is_zero b) eqn:Hz.
    + destruct (enc_flush_spec _ _ Hst) as (buf2 & E2 & Hst2).
      exists buf2, [pend], []. split.
      { cbn [mbind option_bind]. by (exact E2 || rewrite E2). }
      split; [done|]. intros rest. simpl. by rewrite Hz, Hlen.
    + destruct (enc_append_spec b _ _ [] Hst) as (buf2 & E2 & Hst2); [lia|].
      exists buf2, [], (pend ++ [b]). split.
      { cbn [mbind option_bind]. by (exact E2 || rewrite E2). }
      split; [done|]. intros rest. simpl. by rewrite Hz, Hlen.
Qed.

Lemma enc_sink_spec rest : ∀ buf pend,
  enc_state buf pend ->
  exists buf' ds last,
    enc_sink rest buf = Some (buf', map blk ds)
    /\ enc_state buf' last
    /\ blocks pend rest = ds ++ [last].
Proof.
  induction rest as [|b rest IH]; intros buf pend Hst.
  - exists buf, [], pend. by repeat split.
  - destruct (enc_step_spec b _ _ Hst) as (buf1 & ds1 & pend1 & E1 & Hst1 & Hb).
    destruct (IH _ _ Hst1) as (buf2 & ds2 & last & E2 & Hst2 & Hb2).
    exists buf2, (ds1 ++ ds2), last.
    cbn [enc_sink]. rewrite E1. cbn [mbind option_bind]. rewrite E2.
    cbn [mbind option_bind]. rewrite map_app. split; [done|]. split; [done|].
    by rewrite Hb, Hb2, app_assoc.
Qed.

Lemma enc_stop_spec buf pend :
  enc_state buf pend ->
  exists buf', enc_stop buf = Some (buf', [blk pend ++ [x00]])
    /\ enc_state buf' [].
Proof.
  intros (tl & -> & Hl & Hp & Ht).
  exists (x00 :: <[length pend := x00]> tl). split.
  - unfold enc_stop. cbn [lookup list_lookup mbind option_bind].
    rewrite u8_to_byte_small, wrap8_small by lia.
    rewrite store_lt by (simpl; lia). cbn [mbind option_bind].
    rewrite insert_cons_0.
    rewrite store_lt by (simpl; lia). cbn [mbind option_bind].
    rewrite Nat2Z.id. cbn [Nat.add]. rewrite insert_cons_S.
    cbn [lookup list_lookup mbind option_bind].
    rewrite u8_to_byte_small by lia.
    rewrite load_span_le by (rewrite length_cons, length_insert; lia).
    cbn [mbind option_bind].
    replace (Z.to_nat (Z.of_nat (length pend) + 1 + 1)) with (S (S (length pend))) by lia.
    cbn [take].
    erewrite take_S_r by (apply list_lookup_insert_eq; lia).
    rewrite take_insert_ge by lia. rewrite Ht. unfold blk.
    replace (Z.of_nat (S (length pend))) with (Z.of_nat (length pend) + 1) by lia.
    reflexivity.
  - apply enc_state_nil. by rewrite length_insert.
Qed.

(** ** The sink decoder on a sequence of blocks *)

Lemma received_cons c tr :
  received (c :: tr) = default [] (dc_data c) ++ received tr.
Proof. reflexivity. Qed.

Lemma received_app tr1 tr2 : received (tr1 ++ tr2) = received tr1 ++ received tr2.
Proof. unfold received. by rewrite map_app, concat_app. Qed.

Lemma u8_blk_code (d : list byte) :
  (length d <= 254)%nat -> u8 (to_byte (Z.of_nat (S (length d)))) = Z.of_nat (S (length d)).
Proof. intros. apply u8_to_byte_small. lia. Qed.

Lemma length_wire_cons d ds :
  length (wire (d :: ds)) = S (length d + length (wire ds)).
Proof. rewrite wire_cons, length_app, length_blk. lia. Qed.

Lemma length_unstuff_cons prev d ds :
  length (unstuff prev (d :: ds))
  = ((if (prev =? 255)%Z then 0 else 1) + length d
     + length (unstuff (Z.of_nat (S (length d))) ds))%nat.
Proof.
  simpl. rewrite !length_app. destruct (prev =? 255); simpl; lia.
Qed.

Lemma prepend_nil {A} (r : option (A * list dec_call)) : prepend [] r = r.
Proof. by destruct r as [[a tr]|]. Qed.

Lemma emit_prepend {A} c tr (r : option (A * list dec_call)) :
  emit c (prepend tr r) = prepend (c :: tr) r.
Proof. by destruct r as [[a t]|]. Qed.

(** Decoding complete blocks, whatever follows them: the loop reaches the
    rest of the input at a block boundary, having passed the payload of the
    blocks to the sink. *)
Lemma decode_loop_prefix (ds : list (list byte)) : ∀ fuel X prev total,
  Forall (λ d, length d <= 254)%nat ds ->
  (length (wire ds ++ X) < fuel)%nat ->
  exists fuel' prev' tr,
    (length X < fuel')%nat
    /\ decode_loop fuel (wire ds ++ X) prev 0 total
       = prepend tr (decode_loop fuel' X prev' 0
                       (total + length (unstuff prev ds))%nat)
    /\ received tr = unstuff prev ds
    /\ Forall (λ c, dc_left c = 0%nat /\ is_Some (dc_data c)) tr
    /\ ∀ ds', unstuff prev (ds ++ ds') = unstuff prev ds ++ unstuff prev' ds'.
Proof.
  induction ds as [|d ds IH]; intros fuel X prev total Hok Hfuel.
  - exists fuel, prev, []. simpl in *.
    rewrite Nat.add_0_r, prepend_nil. split; [done|]. by repeat split.
  - apply Forall_cons in Hok as [Hd Hok].
    destruct fuel as [|fuel]; [simpl in Hfuel; lia|].
    rewrite wire_cons, <- app_assoc in *. unfold blk at 1.
    rewrite length_app, length_blk in Hfuel.
    cbn [app decode_loop]. change (0 =? 0) with true. cbn [negb].
    rewrite u8_blk_code by done.
    z_ne (Z.of_nat (S (length d))) 0.
    cbn [negb andb].
    replace (wrap8 (Z.of_nat (S (length d)) - 1)) with (Z.of_nat (length d))
      by (rewrite wrap8_small; lia).
    set (total1 := if negb (prev =? 255) then S total else total).
    assert (Hinner : exists fuel' prev' tr,
      (length X < fuel')%nat
      /\ decode_loop fuel (d ++ wire ds ++ X) (Z.of_nat (S (length d)))
           (Z.of_nat (length d)) total1
         = prepend tr (decode_loop fuel' X prev' 0
             (total1 + length d
              + length (unstuff (Z.of_nat (S (length d))) ds))%nat)
      /\ received tr = d ++ unstuff (Z.of_nat (S (length d))) ds
      /\ Forall (λ c, dc_left c = 0%nat /\ is_Some (dc_data c)) tr
      /\ ∀ ds', unstuff (Z.of_nat (S (length d))) (ds ++ ds')
               = unstuff (Z.of_nat (S (length d))) ds ++ unstuff prev' ds').
    { destruct d as [|b d'].
      - destruct (IH fuel X 1 total1 Hok)
          as (fuel' & prev' & tr & Hf' & E & Hr & Hf & Hch);
          [simpl in *; lia|].
        exists fuel', prev', tr. cbn [length app].
        change (Z.of_nat 1) with 1. change (Z.of_nat 0) with 0.
        by rewrite Nat.add_0_r.
      - set (d := b :: d') in *.
        destruct fuel as [|fuel]; [simpl in Hfuel; lia|].
        destruct (IH fuel X (Z.of_nat (S (length d))) (total1 + length d)%nat Hok)
          as (fuel' & prev' & tr & Hf' & E & Hr & Hf & Hch); [simpl in *; lia|].
        exists fuel', prev', (DecCall (Some d) (length d) 0 :: tr).
        change (d ++ wire ds ++ X) with (b :: d' ++ wire ds ++ X) at 1.
        cbn [decode_loop].
        change (b :: d' ++ wire ds ++ X) with (d ++ wire ds ++ X).
        z_ne (Z.of_nat (length d)) 0.
        cbn [negb].
        assert (Hchunk : (if Z.of_nat (length d) <? Z.of_nat (length (d ++ wire ds ++ X))
                          then Z.to_nat (Z.of_nat (length d))
                          else length (d ++ wire ds ++ X)) = length d).
        { destruct (Z.ltb_spec (Z.of_nat (length d))
                      (Z.of_nat (length (d ++ wire ds ++ X)))) as [?|Hge];
            [lia|]. rewrite length_app in *. lia. }
        rewrite Hchunk.
        n_ne (length d) 0%nat.
        cbn [negb]. rewrite Z.sub_diag. change (wrap8 0) with 0.
        change (0 =? 0) with true. cbn [negb].
        rewrite take_app_length, drop_app_length, E, emit_prepend.
        split; [done|]. split; [done|]. split; [by rewrite received_cons, Hr|].
        split; [|done].
        call_ok. }
    destruct Hinner as (fuel' & prev' & tr & Hf' & E & Hr & Hf & Hch). rewrite E.
    assert (Hch' : ∀ ds', unstuff prev ((d :: ds) ++ ds')
                          = unstuff prev (d :: ds) ++ unstuff prev' ds').
    { intros ds'. cbn [app unstuff]. by rewrite Hch, <- !app_assoc. }
    replace (total + length (unstuff prev (d :: ds)))%nat
      with (total1 + length d + length (unstuff (Z.of_nat (S (length d))) ds))%nat
      by (rewrite length_unstuff_cons; unfold total1; destruct (prev =? 255);
          simpl; lia).
    destruct (prev =? 255) eqn:Hp; cbn [negb].
    + exists fuel', prev', tr. split; [done|]. split; [done|].
      split; [cbn [unstuff]; by rewrite Hp|]. by split.
    + exists fuel', prev', (DecCall (Some [x00]) 1 0 :: tr).
      split; [done|]. rewrite emit_prepend. split; [done|].
      split; [rewrite received_cons, Hr; cbn [unstuff]; by rewrite Hp|].
      split; [|done].
      call_ok.
Qed.

Lemma decode_loop_blocks (ds : list (list byte)) fuel tail prev total :
  Forall (λ d, length d <= 254)%nat ds ->
  frame_end tail ->
  (length (wire ds ++ tail) < fuel)%nat ->
  exists tr,
    decode_loop fuel (wire ds ++ tail) prev 0 total
      = Some ((0, (total + length (unstuff prev ds))%nat), tr)
    /\ received tr = unstuff prev ds
    /\ Forall (λ c, dc_left c = 0%nat /\ is_Some (dc_data c)) tr.
Proof.
  intros Hok Hend Hfuel.
  destruct (decode_loop_prefix ds fuel tail prev total Hok Hfuel)
    as (fuel' & prev' & tr & Hf' & E & Hr & Hf & _).
  exists tr. rewrite E. split; [|by split].
  destruct fuel' as [|fuel']; [lia|].
  destruct Hend as [->|[t ->]]; simpl; by rewrite app_nil_r.
Qed.

(** A code byte followed by fewer data bytes than it declares, then the end
    of the input: the loop ends with [block = reported c data]. *)
Lemma decode_loop_partial fuel c data prev total :
  Z.of_nat (length data) < u8 c - 1 ->
  (length (c :: data) < fuel)%nat ->
  exists tr,
    decode_loop fuel (c :: data) prev 0 total
    = Some ((reported c data, (total + length (unstuff prev [data]))%nat), tr)
    /\ received tr = unstuff prev [data]
    /\ Forall (λ c, dc_left c = 0%nat /\ is_Some (dc_data c)) tr.
Proof.
  intros Hlt Hfuel. pose proof (u8_range c) as Hc.
  destruct fuel as [|fuel]; [simpl in Hfuel; lia|].
  cbn [decode_loop]. change (0 =? 0) with true. cbn [negb].
  z_ne (u8 c) 0.
  cbn [negb andb]. rewrite wrap8_small by lia.
  set (total1 := if negb (prev =? 255) then S total else total).
  assert (Hinner : exists tr,
    decode_loop fuel data (u8 c) (u8 c - 1) total1
    = Some ((reported c data, (total1 + length data)%nat), tr)
    /\ received tr = data
    /\ Forall (λ c, dc_left c = 0%nat /\ is_Some (dc_data c)) tr).
  { destruct data as [|b d'].
    - destruct fuel as [|fuel]; [simpl in Hfuel; lia|].
      exists []. simpl. rewrite Nat.add_0_r. unfold reported. simpl.
      rewrite Z.sub_0_r. split; [done|]. split; [done|apply Forall_nil_2].
    - set (d := b :: d') in *.
      destruct fuel as [|fuel]; [simpl in Hfuel; lia|].
      destruct fuel as [|fuel]; [simpl in Hfuel; lia|].
      exists [DecCall (Some d) (length d) 0].
      unfold d at 1. cbn [decode_loop]. fold d.
      z_ne (u8 c - 1) 0.
      cbn [negb].
      replace (u8 c - 1 <? Z.of_nat (length d)) with false
        by (symmetry; apply Z.ltb_ge; lia).
      n_ne (length d) 0%nat.
      cbn [negb]. rewrite wrap8_small by lia.
      z_ne (u8 c - 1 - Z.of_nat (length d)) 0.
      cbn [negb]. rewrite wrap8_small by lia.
      rewrite drop_all, take_ge by lia. cbn [decode_loop emit mbind option_bind].
      split; [done|]. split; [by rewrite received_cons; simpl; rewrite app_nil_r|].
      call_ok. }
  destruct Hinner as (tr & E & Hr & Hf). rewrite E.
  assert (Hlen : (total + length (unstuff prev [data]))%nat
                 = (total1 + length data)%nat).
  { simpl. rewrite length_app, app_nil_r. unfold total1.
    destruct (prev =? 255); simpl; lia. }
  rewrite Hlen. cbn [unstuff]. rewrite app_nil_r.
  destruct (prev =? 255) eqn:Hp; cbn [negb].
  - exists tr. by split.
  - exists (DecCall (Some [x00]) 1 0 :: tr). split; [done|].
    split; [by rewrite received_cons, Hr|].
    call_ok.
Qed.

(** What the sink decoder does on a truncated input: the count it reports
    is [reported c data]; when that is zero it reports nothing and returns
    the length decoded so far. *)
Lemma cobs_decode_cb_truncated (ds : list (list byte)) c data :
  Forall (λ d, length d <= 254)%nat ds ->
  Z.of_nat (length data) < u8 c - 1 ->
  exists tr,
    received tr = unstuff 255 (ds ++ [data])
    /\ Forall (λ c, dc_left c = 0%nat /\ is_Some (dc_data c)) tr
    /\ cobs_decode_cb (wire ds ++ c :: data)
       = if reported c data =? 0 then Some (length (received tr), tr)
         else Some (0%nat, tr ++ [DecCall None 0 (Z.to_nat (reported c data))]).
Proof.
  intros Hok Hlt.
  destruct (decode_loop_prefix ds (S (length (wire ds ++ c :: data)))
              (c :: data) 255 0 Hok)
    as (fuel' & prev' & tr1 & Hf' & E1 & Hr1 & Hok1 & Hch); [lia|].
  destruct (decode_loop_partial fuel' c data prev'
              (0 + length (unstuff 255 ds)) Hlt Hf')
    as (tr2 & E2 & Hr2 & Hok2).
  exists (tr1 ++ tr2).
  assert (Hr : received (tr1 ++ tr2) = unstuff 255 (ds ++ [data]))
    by (by rewrite received_app, Hr1, Hr2, Hch).
  split; [done|]. split; [by apply Forall_app|].
  unfold cobs_decode_cb. rewrite E1, E2. cbn [prepend mbind option_bind].
  destruct (reported c data =? 0); cbn [negb]; [|done].
  rewrite Hr, Hch, length_app. reflexivity.
Qed.

Lemma emit_is_Some {A} c (r : option (A * list dec_call)) :
  is_Some r -> is_Some (emit c r).
Proof. intros [[a tr] ->]. by eexists. Qed.

Lemma wrap8_range z : 0 <= wrap8 z < 256.
Proof. unfold wrap8. apply Z.mod_pos_bound. lia. Qed.

(** The sink decoder never runs out of fuel: every iteration consumes at
    least one byte of input. *)
Lemma decode_loop_total fuel : ∀ rest code block total,
  0 <= block < 256 ->
  (length rest < fuel)%nat ->
  is_Some (decode_loop fuel rest code block total).
Proof.
  induction fuel as [|fuel IH]; intros rest code block total Hb Hf; [lia|].
  destruct rest as [|b rest]; [by eexists|].
  cbn [decode_loop]. destruct (block =? 0) eqn:Hz; cbn [negb].
  - assert (Hr : ∀ t, is_Some
      (if u8 b =? 0 then Some (u8 b, t, [])
       else decode_loop fuel rest (u8 b)
              (if negb (u8 b =? 0) then wrap8 (u8 b - 1) else u8 b) t)).
    { intros t. destruct (u8 b =? 0); [by eexists|]. cbn [negb].
      apply IH; [apply wrap8_range | simpl in Hf; lia]. }
    destruct (negb (u8 b =? 0) && negb (code =? 255));
      [apply emit_is_Some|]; apply Hr.
  - apply Z.eqb_neq in Hz.
    set (chunk := if block <? Z.of_nat (length (b :: rest))
                  then Z.to_nat block else length (b :: rest)).
    assert (Hc : (1 <= chunk <= length (b :: rest))%nat).
    { unfold chunk. destruct (Z.ltb_spec block (Z.of_nat (length (b :: rest))));
        simpl in *; lia. }
    n_ne chunk 0%nat.
    cbn [negb]. apply emit_is_Some, IH.
    + destruct (wrap8 (block - Z.of_nat chunk) =? 0); apply wrap8_range.
    + rewrite length_drop. simpl in *. lia.
Qed.

Lemma cobs_decode_cb_total inp : is_Some (cobs_decode_cb inp).
Proof.
  unfold cobs_decode_cb.
  destruct (decode_loop_total (S (length inp)) inp 255 0 0) as [[[block total] tr] ->];
    [lia | lia |].
  cbn [mbind option_bind]. destruct (negb (block =? 0)); by eexists.
Qed.

Lemma cobs_decode_cb_blocks (ds : list (list byte)) tail :
  Forall (λ d, length d <= 254)%nat ds ->
  frame_end tail ->
  exists tr,
    cobs_decode_cb (wire ds ++ tail) = Some (length (unstuff 255 ds), tr)
    /\ received tr = unstuff 255 ds
    /\ Forall (λ c, dc_left c = 0%nat /\ is_Some (dc_data c)) tr.
Proof.
  intros Hok Hend.
  destruct (decode_loop_blocks ds (S (length (wire ds ++ tail))) tail 255 0 Hok Hend)
    as (tr & E & Hr & Hf); [lia|].
  exists tr. unfold cobs_decode_cb. rewrite E. by simpl.
Qed.

(** ** Bounded buffers

    A bounded-buffer routine behaves as if it wrote an unbounded image [M]
    of which only the part that fits reaches [out]. *)

Lemma length_overlay M out0 : length (overlay M out0) = length out0.
Proof.
  unfold overlay. rewrite length_app, length_take, length_drop. lia.
Qed.

Lemma overlay_nil out0 : overlay [] out0 = out0.
Proof. unfold overlay. by rewrite take_nil. Qed.

Lemma sat_refl cap n : sat cap n n.
Proof. by split. Qed.

Lemma sat_advance cap p n : sat cap p n -> sat cap (advance_if cap p) (S n).
Proof.
  intros [H1 H2]. unfold advance_if.
  destruct (Nat.ltb_spec p cap) as [Hlt|Hge]; split; intros; lia.
Qed.

(** A guarded store at the end of the image appends to the image. *)
Lemma overlay_snoc M out0 p b :
  sat (length out0) p (length M) ->
  store_if (length out0) p b (overlay M out0) = overlay (M ++ [b]) out0.
Proof.
  intros [H1 H2]. unfold store_if, overlay.
  destruct (Nat.ltb_spec p (length out0)) as [Hlt|Hge].
  - assert (p = length M) as -> by auto. clear H1 H2.
    rewrite take_ge by lia. rewrite take_ge by (rewrite length_app; simpl; lia).
    rewrite length_app. simpl.
    destruct (lookup_lt_is_Some_2 out0 (length M) Hlt) as [x Hx].
    rewrite (drop_S _ _ _ Hx).
    replace (length M + 1)%nat with (S (length M)) by lia.
    rewrite <- (Nat.add_0_r (length M)) at 1.
    rewrite insert_app_r. simpl. by rewrite <- app_assoc.
  - assert (length out0 <= length M)%nat by lia.
    rewrite take_app_le by lia.
    rewrite !drop_ge; [done| |lia]. rewrite length_app. lia.
Qed.

(** Reserving a slot without writing it keeps the byte that was there. *)
Lemma overlay_reserve M out0 :
  overlay (M ++ [default x00 (out0 !! length M)]) out0 = overlay M out0.
Proof.
  unfold overlay. rewrite length_app. simpl.
  destruct (Nat.lt_ge_cases (length M) (length out0)) as [Hlt|Hge].
  - destruct (lookup_lt_is_Some_2 out0 (length M) Hlt) as [x Hx].
    rewrite Hx. simpl.
    rewrite take_ge by (rewrite length_app; simpl; lia).
    rewrite (take_ge M) by lia.
    rewrite (drop_S _ _ _ Hx).
    replace (length M + 1)%nat with (S (length M)) by lia.
    by rewrite <- app_assoc.
  - rewrite take_app_le by lia. rewrite !drop_ge; [done|lia|lia].
Qed.

(** A guarded store into a reserved slot fills it in. *)
Lemma overlay_fill W s c pend out0 p :
  sat (length out0) p (length W) ->
  store_if (length out0) p c (overlay (W ++ s :: pend) out0)
  = overlay (W ++ c :: pend) out0.
Proof.
  intros [H1 H2]. unfold store_if, overlay.
  rewrite !length_app. simpl.
  destruct (Nat.ltb_spec p (length out0)) as [Hlt|Hge].
  - assert (p = length W) as -> by auto. clear H1 H2.
    rewrite insert_app_l by (rewrite length_take, length_app; simpl; lia).
    rewrite <- take_insert_lt by lia.
    rewrite <- (Nat.add_0_r (length W)) at 1.
    rewrite insert_app_r. reflexivity.
  - assert (length out0 <= length W)%nat by lia.
    by rewrite !take_app_le by lia.
Qed.

(** ** The bounded-buffer decoder on a sequence of blocks *)

Lemma decode_buf_data d : ∀ X out0 M dst code required,
  (length d <= 255)%nat ->
  sat (length out0) dst (length M) ->
  exists dst',
    decode_buf_loop (length out0) (d ++ X) (overlay M out0) dst code
      (Z.of_nat (length d)) required
    = decode_buf_loop (length out0) X (overlay (M ++ d) out0) dst' code 0
        (required + length d)%nat
    /\ sat (length out0) dst' (length (M ++ d)).
Proof.
  induction d as [|b d IH]; intros X out0 M dst code required Hlen Hsat.
  - exists dst. simpl. by rewrite !app_nil_r, Nat.add_0_r.
  - simpl in Hlen.
    destruct (IH X out0 (M ++ [b]) (advance_if (length out0) dst) code (S required))
      as (dst' & E & Hsat'); [lia| |].
    { rewrite length_app. simpl. rewrite Nat.add_1_r. by apply sat_advance. }
    exists dst'. rewrite <- app_assoc in E, Hsat'. split; [|done].
    cbn [app decode_buf_loop].
    z_ne (Z.of_nat (length (b :: d))) 0.
    cbn [negb]. rewrite overlay_snoc by done.
    replace (wrap8 (Z.of_nat (length (b :: d)) - 1)) with (Z.of_nat (length d))
      by (rewrite wrap8_small; simpl; lia).
    rewrite E. f_equal. simpl. lia.
Qed.

(** Decoding complete blocks, whatever follows them. *)
Lemma decode_buf_loop_prefix (ds : list (list byte)) : ∀ X out0 prev M dst,
  Forall (λ d, length d <= 254)%nat ds ->
  sat (length out0) dst (length M) ->
  exists dst' prev',
    decode_buf_loop (length out0) (wire ds ++ X) (overlay M out0) dst prev 0
      (length M)
    = decode_buf_loop (length out0) X (overlay (M ++ unstuff prev ds) out0)
        dst' prev' 0 (length (M ++ unstuff prev ds))
    /\ sat (length out0) dst' (length (M ++ unstuff prev ds)).
Proof.
  induction ds as [|d ds IH]; intros X out0 prev M dst Hok Hsat.
  - exists dst, prev. simpl. by rewrite app_nil_r.
  - apply Forall_cons in Hok as [Hd Hok].
    rewrite wire_cons, <- app_assoc. unfold blk at 1.
    cbn [app decode_buf_loop]. change (0 =? 0) with true. cbn [negb].
    rewrite u8_blk_code by done.
    z_ne (Z.of_nat (S (length d))) 0.
    cbn [negb andb].
    replace (wrap8 (Z.of_nat (S (length d)) - 1)) with (Z.of_nat (length d))
      by (rewrite wrap8_small; lia).
    cbn [unstuff].
    destruct (prev =? 255) eqn:Hp; cbn [negb app].
    + destruct (decode_buf_data d (wire ds ++ X) out0 M dst
                  (Z.of_nat (S (length d))) (length M)) as (dst1 & E & Hsat1);
        [lia|done|].
      rewrite E.
      replace (length M + length d)%nat with (length (M ++ d))
        by (rewrite length_app; lia).
      destruct (IH X out0 (Z.of_nat (S (length d))) (M ++ d) dst1 Hok Hsat1)
        as (dst2 & prev2 & E2 & Hsat2).
      rewrite E2. rewrite <- app_assoc in *. by exists dst2, prev2.
    + rewrite overlay_snoc by done.
      destruct (decode_buf_data d (wire ds ++ X) out0 (M ++ [x00])
                  (advance_if (length out0) dst)
                  (Z.of_nat (S (length d))) (S (length M))) as (dst1 & E & Hsat1);
        [lia| |].
      { rewrite length_app. simpl. rewrite Nat.add_1_r. by apply sat_advance. }
      rewrite E.
      replace (S (length M) + length d)%nat with (length ((M ++ [x00]) ++ d))
        by (rewrite !length_app; simpl; lia).
      destruct (IH X out0 (Z.of_nat (S (length d))) ((M ++ [x00]) ++ d) dst1 Hok Hsat1)
        as (dst2 & prev2 & E2 & Hsat2).
      rewrite E2. rewrite <- !app_assoc in *. cbn [app] in *. by exists dst2, prev2.
Qed.

Lemma decode_buf_loop_blocks (ds : list (list byte)) tail out0 prev M dst :
  Forall (λ d, length d <= 254)%nat ds ->
  frame_end tail ->
  sat (length out0) dst (length M) ->
  decode_buf_loop (length out0) (wire ds ++ tail) (overlay M out0) dst prev 0
    (length M)
  = (overlay (M ++ unstuff prev ds) out0, 0,
     (length M + length (unstuff prev ds))%nat).
Proof.
  intros Hok Hend Hsat.
  destruct (decode_buf_loop_prefix ds tail out0 prev M dst Hok Hsat)
    as (dst' & prev' & E & _).
  rewrite E, length_app. destruct Hend as [->|[t ->]]; reflexivity.
Qed.

(** Fewer data bytes than the block still expects: the loop ends with
    [block] nonzero. *)
Lemma decode_buf_loop_short data : ∀ dst_end out dst code block required,
  Z.of_nat (length data) < block < 256 ->
  snd (fst (decode_buf_loop dst_end data out dst code block required))
  = block - Z.of_nat (length data).
Proof.
  induction data as [|b data IH]; intros dst_end out dst code block required Hb.
  - simpl. lia.
  - cbn [decode_buf_loop].
    z_ne block 0.
    cbn [negb]. simpl length in *.
    rewrite IH by (rewrite wrap8_small; lia).
    rewrite wrap8_small by lia. lia.
Qed.

(** After complete blocks of any content, a code byte that declares more
    data bytes than remain: the bounded-buffer decoder returns 0. *)
Lemma cobs_decode_buf_short_block (ds : list (list byte)) c data out0 :
  Forall (λ d, length d <= 254)%nat ds ->
  Z.of_nat (length data) < u8 c - 1 ->
  fst (cobs_decode_buf (wire ds ++ c :: data) out0) = 0%nat.
Proof.
  intros Hshort Hlt.
  pose proof (u8_range c) as Hc.
  unfold cobs_decode_buf.
  rewrite <- (overlay_nil out0) at 2.
  change 0%nat with (length (@nil byte)) at 2.
  destruct (decode_buf_loop_prefix ds (c :: data) out0 255 [] 0 Hshort (sat_refl _ _))
    as (dst' & prev' & E & _).
  rewrite E. clear E. cbn [decode_buf_loop]. change (0 =? 0) with true.
  cbn [negb].
  z_ne (u8 c) 0.
  cbn [negb andb]. destruct (negb (prev' =? 255)).
  all: match goal with
  | |- context [decode_buf_loop ?e ?dt ?o ?d ?cd (wrap8 ?bl) ?r] =>
      pose proof (decode_buf_loop_short dt e o d cd (wrap8 bl) r) as Hs;
      destruct (decode_buf_loop e dt o d cd (wrap8 bl) r) as [[o' blk'] r']
  end.
  all: rewrite wrap8_small in Hs by lia; cbn [fst snd] in *.
  all: rewrite Hs by lia.
  all: z_ne (u8 c - 1 - Z.of_nat (length data)) 0.
  all: reflexivity.
Qed.

(** The bounded-buffer decoder returns 0 on every truncated input. *)
Lemma cobs_decode_buf_truncated inp out0 :
  truncated inp -> fst (cobs_decode_buf inp out0) = 0%nat.
Proof.
  intros (ds & c & data & Hok & -> & Hlt).
  apply cobs_decode_buf_short_block; [|done].
  eapply Forall_impl; [exact Hok|]. by intros d [H _].
Qed.

Lemma cobs_decode_buf_blocks (ds : list (list byte)) tail out0 :
  Forall (λ d, length d <= 254)%nat ds ->
  frame_end tail ->
  cobs_decode_buf (wire ds ++ tail) out0
  = (length (unstuff 255 ds), overlay (unstuff 255 ds) out0).
Proof.
  intros Hok Hend. unfold cobs_decode_buf.
  rewrite <- (overlay_nil out0) at 2.
  change 0%nat with (length (@nil byte)) at 2.
  rewrite (decode_buf_loop_blocks ds tail out0 255 [] 0 Hok Hend (sat_refl _ _)).
  reflexivity.
Qed.

(** ** The bounded-buffer encoder writes the blocks of its input *)

Lemma last_app_blocks ds pend rest :
  last (ds ++ blocks pend rest) = last (blocks pend rest).
Proof.
  destruct (blocks pend rest) as [|d l] eqn:E.
  - by apply blocks_nonempty in E.
  - rewrite <- E. clear E. induction ds as [|x ds IH]; [done|].
    simpl. destruct (ds ++ blocks pend rest) eqn:E'; [|done].
    apply app_eq_nil in E' as [_ E']. by apply blocks_nonempty in E'.
Qed.

Lemma stray_step ds pend b rest pend' :
  blocks pend (b :: rest) = ds ++ blocks pend' rest ->
  stray pend (b :: rest) = stray pend' rest.
Proof.
  intros H. unfold stray, ends_full. by rewrite H, last_app_blocks.
Qed.

Lemma encode_buf_loop_blocks rest : ∀ out0 W s pend dst_len dst_dat code required,
  (length pend <= 253)%nat ->
  code = Z.of_nat (S (length pend)) ->
  required = (length W + 1 + length pend)%nat ->
  sat (length out0) dst_len (length W) ->
  sat (length out0) dst_dat required ->
  encode_buf_finish (length out0)
    (encode_buf_loop (length out0) rest (overlay (W ++ s :: pend) out0)
       dst_len dst_dat code required)
  = ((length W + length (wire (blocks pend rest)))%nat,
     overlay (W ++ wire (blocks pend rest) ++ stray pend rest) out0).
Proof.
  induction rest as [|b rest IH];
    intros out0 W s pend dst_len dst_dat code required Hp Hc Hr Hsl Hsd.
  - cbn [encode_buf_loop encode_buf_finish blocks].
    rewrite overlay_fill by done.
    assert (Hs : stray pend [] = []).
    { unfold stray, ends_full. simpl.
      by n_ne (length pend) 254%nat. }
    rewrite Hs, app_nil_r. unfold wire. simpl. rewrite app_nil_r.
    unfold blk. rewrite Hc, Hr. f_equal. simpl. lia.
  - assert (Hnf : (length pend =? 254)%nat = false) by (apply Nat.eqb_neq; lia).
    assert (HM : length (W ++ s :: pend) = required)
      by (rewrite length_app; simpl; lia).
    cbn [encode_buf_loop].
    destruct (is_zero b) eqn:Hz; cbn [negb].
    + rewrite orb_true_r. cbn [orb].
      rewrite overlay_fill by done.
      assert (Hb : blocks pend (b :: rest) = [pend] ++ blocks [] rest)
        by (simpl; by rewrite Hz, Hnf).
      rewrite Hb, (stray_step _ _ _ _ _ Hb), wire_app, length_app.
      set (W' := W ++ blk pend).
      assert (HW' : length W' = required)
        by (unfold W'; rewrite length_app, length_blk; lia).
      replace (W ++ to_byte code :: pend) with W'
        by (unfold W', blk; by rewrite Hc).
      rewrite <- (overlay_reserve W').
      rewrite (IH out0 W' _ [] dst_dat (advance_if (length out0) dst_dat) 1 (S required));
        [| simpl; lia | done | simpl; lia | by rewrite HW'
         | by apply sat_advance].
      unfold W'. rewrite <- !app_assoc, !length_app.
      unfold wire at 3 5. simpl. rewrite !app_nil_r. f_equal. lia.
    + assert (Hb1 : blocks pend (b :: rest) = blocks (pend ++ [b]) rest)
        by (simpl; by rewrite Hz, Hnf).
      rewrite overlay_snoc by (by rewrite HM).
      rewrite <- app_assoc. cbn [app].
      rewrite wrap8_small by lia. rewrite orb_false_r.
      destruct (code + 1 =? 255) eqn:Hff.
      * apply Z.eqb_eq in Hff.
        assert (Hl : length (pend ++ [b]) = 254%nat)
          by (rewrite length_app; simpl; lia).
        rewrite overlay_fill by done.
        set (W' := W ++ blk (pend ++ [b])).
        assert (HW' : length W' = S required)
          by (unfold W'; rewrite length_app, length_blk; lia).
        replace (W ++ to_byte (code + 1) :: pend ++ [b]) with W'
          by (unfold W', blk; rewrite Hl, Hff; reflexivity).
        destruct rest as [|c rest'].
        -- cbn [bool_decide decide_rel orb negb encode_buf_loop encode_buf_finish].
           rewrite bool_decide_eq_true_2 by done. cbn [negb].
           cbn [encode_buf_loop encode_buf_finish].
           rewrite overlay_snoc by (rewrite HW'; by apply sat_advance).
           rewrite Hb1. cbn [blocks].
           assert (Hs : stray pend [b] = [x01]).
           { unfold stray, ends_full. rewrite Hb1. simpl. by rewrite Hl. }
           rewrite Hs, wire_cons. change (wire []) with (@nil byte).
           rewrite app_nil_r. fold W'. rewrite app_assoc. fold W'.
           rewrite <- HW'. unfold W'. rewrite length_app. reflexivity.
        -- rewrite bool_decide_eq_false_2 by done. cbn [negb orb].
           assert (Hb : blocks pend (b :: c :: rest')
                        = [pend ++ [b]] ++ blocks [] (c :: rest'))
             by (rewrite Hb1; by apply blocks_full_cons).
           rewrite Hb, (stray_step _ _ _ _ _ Hb), wire_app, length_app.
           rewrite <- (overlay_reserve W').
           rewrite (IH out0 W' _ [] (advance_if (length out0) dst_dat)
                      (advance_if (length out0) (advance_if (length out0) dst_dat))
                      1 (S (S required)));
             [| simpl; lia | done | simpl; lia
              | rewrite HW'; by apply sat_advance
              | by do 2 apply sat_advance].
           unfold W'. rewrite <- !app_assoc, !length_app.
           unfold wire at 3 5. simpl. rewrite !app_nil_r. f_equal. lia.
      * apply Z.eqb_neq in Hff.
        rewrite Hb1, (stray_step [] _ _ _ _ Hb1).
        apply IH; [rewrite length_app; simpl; lia | rewrite length_app; simpl; lia
                  | rewrite length_app; simpl; lia | done | by apply sat_advance].
Qed.

Lemma cobs_encode_buf_blocks inp out0 :
  cobs_encode_buf inp out0
  = (length (cobs inp), overlay (cobs inp ++ stray [] inp) out0).
Proof.
  change (cobs_encode_buf inp out0)
    with (encode_buf_finish (length out0)
            (encode_buf_loop (length out0) inp out0 0 1 1 1)).
  rewrite <- (overlay_nil out0) at 3.
  rewrite <- (overlay_reserve [] out0).
  rewrite (encode_buf_loop_blocks inp out0 [] _ [] 0 1 1 1);
    [done | simpl; lia | done | done | apply sat_refl | apply sat_refl].
Qed.

(** The part of the buffer inside the returned size is the encoding, as far
    as it fits. *)
Lemma cobs_encode_buf_take inp out0 :
  take (fst (cobs_encode_buf inp out0)) (snd (cobs_encode_buf inp out0))
  = take (length out0) (cobs inp).
Proof.
  rewrite cobs_encode_buf_blocks. cbn [fst snd]. unfold overlay.
  destruct (Nat.le_ge_cases (length out0) (length (cobs inp))) as [Hle|Hge].
  - rewrite (drop_ge out0) by (rewrite length_app; lia).
    rewrite app_nil_r, take_take, take_app_le by lia.
    f_equal. lia.
  - rewrite (take_ge (cobs inp)) by lia.
    rewrite take_app_le by (rewrite length_take, length_app; lia).
    rewrite take_take, take_app_le by lia.
    rewrite take_ge by lia. done.
Qed.

(** ** The streaming decoder *)

Lemma dec_inv_reset d : length (d_buf d) = 255%nat -> dec_inv (dec_reset d).
Proof. intros H. unfold dec_inv. simpl. repeat split; (done || lia). Qed.

Lemma dec_stop_spec d :
  dec_inv d ->
  dec_stop d
  = Some (dec_reset d,
          [DecCall (Some (take (Z.to_nat (d_size d)) (d_buf d)))
             (Z.to_nat (d_size d)) (dec_left d)]).
Proof.
  intros (Hl & Hc & Hs & H0 & H1). unfold dec_stop, dec_left.
  assert (Hsz : d_size d <= 254) by (destruct (decide (d_code d = 0)); lia).
  rewrite load_span_le by lia. cbn [mbind option_bind].
  destruct (d_code d =? 0) eqn:E; cbn [negb]; [done|].
  apply Z.eqb_neq in E. rewrite Z.mod_small by lia. done.
Qed.

Lemma dec_step_spec b d :
  dec_inv d ->
  exists d' tr,
    dec_step b d = Some (d', tr)
    /\ dec_inv d'
    /\ Forall (λ c, dc_size c <= 254)%nat tr
    /\ (b <> x00 ->
        (d_code d', d_size d')
        = if (d_code d =? 0) || (d_size d + 1 =? d_code d)
          then (u8 b, 0) else (d_code d, d_size d + 1)).
Proof.
  intros Hinv. pose proof Hinv as (Hl & Hc & Hs & H0 & H1).
  assert (Hsz : d_size d <= 254) by (destruct (decide (d_code d = 0)); lia).
  pose proof (u8_range b) as Hb.
  unfold dec_step. destruct (u8 b =? 0) eqn:Hz.
  - rewrite dec_stop_spec by done.
    eexists _, _. split; [done|]. split; [by apply dec_inv_reset|].
    split.
    + apply Forall_cons_2; [simpl; lia | apply Forall_nil_2].
    + intros Hne. apply Z.eqb_eq in Hz. exfalso. apply Hne.
      apply u8_inj. by rewrite Hz.
  - apply Z.eqb_neq in Hz.
    destruct ((d_code d =? 0) || (d_size d + 1 =? d_code d)) eqn:Hcond.
    + destruct (negb (d_code d =? 0) && negb (d_code d =? 255)) eqn:Himp.
      * apply andb_true_iff in Himp as [Hc0 Hcf].
        apply negb_true_iff, Z.eqb_neq in Hc0.
        apply negb_true_iff, Z.eqb_neq in Hcf.
        apply orb_true_iff in Hcond as [Hcond|Hcond];
          [apply Z.eqb_eq in Hcond; lia | apply Z.eqb_eq in Hcond].
        rewrite store_lt by lia. cbn [mbind option_bind].
        rewrite wrap8_small by lia.
        rewrite load_span_le by (rewrite length_insert; lia).
        cbn [mbind option_bind].
        eexists _, _. split; [done|]. split.
        { unfold dec_inv. simpl. rewrite length_insert. repeat split; (done || lia). }
        split; [|done].
        apply Forall_cons_2; [simpl; lia | apply Forall_nil_2].
      * cbn [mbind option_bind].
        rewrite load_span_le by lia. cbn [mbind option_bind].
        eexists _, _. split; [done|]. split.
        { unfold dec_inv. simpl. repeat split; (done || lia). }
        split; [|done].
        apply Forall_cons_2; [simpl; lia | apply Forall_nil_2].
    + apply orb_false_iff in Hcond as [Hc0 Hcs].
      apply Z.eqb_neq in Hc0. apply Z.eqb_neq in Hcs.
      rewrite store_lt by lia. cbn [mbind option_bind].
      rewrite wrap8_small by lia.
      eexists _, _. split; [done|]. split.
      { unfold dec_inv. simpl. rewrite length_insert. repeat split; (done || lia). }
      split; [apply Forall_nil_2 | done].
Qed.

Lemma dec_sink_spec inp : ∀ d,
  dec_inv d ->
  exists d' tr,
    dec_sink inp d = Some (d', tr)
    /\ dec_inv d'
    /\ Forall (λ c, dc_size c <= 254)%nat tr.
Proof.
  induction inp as [|b inp IH]; intros d Hinv.
  - exists d, []. split; [done|]. split; [done|]. apply Forall_nil_2.
  - destruct (dec_step_spec b d Hinv) as (d1 & tr1 & E1 & Hinv1 & Hf1 & _).
    destruct (IH d1 Hinv1) as (d2 & tr2 & E2 & Hinv2 & Hf2).
    exists d2, (tr1 ++ tr2). cbn [dec_sink]. rewrite E1. cbn [mbind option_bind].
    rewrite E2. cbn [mbind option_bind]. split; [done|]. split; [done|].
    by apply Forall_app.
Qed.

Lemma wire_snoc ds d : wire (ds ++ [d]) = wire ds ++ blk d.
Proof. rewrite wire_app. unfold wire at 2. simpl. by rewrite app_nil_r. Qed.

Lemma parsed_step pre code size b :
  parsed pre code size -> b <> x00 ->
  let '(code', size') :=
    if (code =? 0) || (size + 1 =? code) then (u8 b, 0) else (code, size + 1) in
  parsed (pre ++ [b]) code' size'.
Proof.
  intros Hp Hb.
  assert (Hb0 : u8 b <> 0).
  { intros E. apply Hb. apply u8_inj. by rewrite E. }
  pose proof (u8_range b) as Hbr.
  destruct Hp as [(-> & -> & ->)|(ds & c & data & Hok & -> & -> & Hc0 & -> & Hle & Hnz)].
  - simpl. right. exists [], b, []. simpl.
    repeat split; first [done | lia | apply Forall_nil_2].
  - pose proof (u8_range c) as Hcr.
    replace (u8 c =? 0) with false by (symmetry; by apply Z.eqb_neq).
    cbn [orb].
    destruct (Z.of_nat (length data) + 1 =? u8 c) eqn:E.
    + apply Z.eqb_eq in E. right. exists (ds ++ [data]), b, [].
      split.
      { apply Forall_app. split; [done|].
        apply Forall_cons_2; [split; [lia|done] | apply Forall_nil_2]. }
      split.
      { rewrite wire_snoc. unfold blk.
        replace (Z.of_nat (S (length data))) with (u8 c) by lia.
        by rewrite to_byte_u8, <- !app_assoc. }
      simpl. repeat split; first [done | lia | apply Forall_nil_2].
    + apply Z.eqb_neq in E. right. exists ds, c, (data ++ [b]).
      split; [done|]. split; [by rewrite <- app_assoc|].
      rewrite length_app. simpl.
      repeat split; try done; try lia.
      apply Forall_app. split; [done|].
      apply Forall_cons_2; [done | apply Forall_nil_2].
Qed.

Lemma dec_sink_parsed inp : ∀ d pre,
  Forall (λ b, b <> x00) inp ->
  dec_inv d ->
  parsed pre (d_code d) (d_size d) ->
  exists d' tr,
    dec_sink inp d = Some (d', tr)
    /\ dec_inv d'
    /\ parsed (pre ++ inp) (d_code d') (d_size d').
Proof.
  induction inp as [|b inp IH]; intros d pre Hnz Hinv Hp.
  - exists d, []. rewrite app_nil_r. by split.
  - apply Forall_cons in Hnz as [Hb Hnz].
    destruct (dec_step_spec b d Hinv) as (d1 & tr1 & E1 & Hinv1 & _ & Hst).
    specialize (Hst Hb).
    pose proof (parsed_step _ _ _ b Hp Hb) as Hp1.
    destruct ((d_code d =? 0) || (d_size d + 1 =? d_code d));
      injection Hst as Hc1 Hs1; rewrite <- Hc1, <- Hs1 in Hp1;
      destruct (IH d1 (pre ++ [b]) Hnz Hinv1 Hp1) as (d2 & tr2 & E2 & Hinv2 & Hp2);
      exists d2, (tr1 ++ tr2); cbn [dec_sink]; rewrite E1; cbn [mbind option_bind];
      rewrite E2; cbn [mbind option_bind]; rewrite <- app_assoc in Hp2; done.
Qed.

Lemma wire_unique_prefix (ds1 : list (list byte)) : ∀ ds2 c data,
  Forall block_ok ds1 -> Forall block_ok ds2 ->
  wire ds1 = wire ds2 ++ c :: data ->
  Z.of_nat (length data) < u8 c - 1 -> False.
Proof.
  induction ds1 as [|d1 ds1 IH]; intros ds2 c data H1 H2 E Hlt.
  - destruct ds2; discriminate E.
  - apply Forall_cons in H1 as [[Hl1 _] H1].
    rewrite wire_cons in E. destruct ds2 as [|d2 ds2].
    + simpl in E. injection E as Ec Ed. subst c.
      rewrite u8_blk_code in Hlt by done.
      apply (f_equal length) in Ed. rewrite length_app in Ed. lia.
    + apply Forall_cons in H2 as [[Hl2 _] H2].
      rewrite wire_cons, <- app_assoc in E.
      injection E as Ec Ed.
      apply (f_equal u8) in Ec. rewrite !u8_blk_code in Ec by done.
      apply app_inj_1 in Ed as [_ Ed]; [|lia].
      by apply (IH ds2 c data).
Qed.

Lemma parsed_left inp code size :
  parsed inp code size ->
  let left := Z.to_nat (if negb (code =? 0) then code - size - 1 else 0) in
  (left = 0%nat <-> wf_frame inp) /\ ((0 < left)%nat <-> truncated inp).
Proof.
  intros [(-> & -> & ->)|(ds & c & data & Hok & -> & -> & Hc0 & -> & Hle & Hnz)]; simpl.
  - split; split; try lia.
    + intros _. exists []. split; [apply Forall_nil_2|done].
    + intros (ds & c & data & _ & E & _). by destruct (wire ds).
  - pose proof (u8_range c) as Hcr.
    replace (u8 c =? 0) with false by (symmetry; by apply Z.eqb_neq).
    cbn [negb].
    destruct (decide (Z.of_nat (length data) = u8 c - 1)) as [Hfull|Hpart].
    + assert (Hwf : wf_frame (wire ds ++ c :: data)).
      { exists (ds ++ [data]). split.
        - apply Forall_app. split; [done|].
          apply Forall_cons_2; [split; [lia|done] | apply Forall_nil_2].
        - rewrite wire_snoc. unfold blk.
          replace (Z.of_nat (S (length data))) with (u8 c) by lia.
          by rewrite to_byte_u8. }
      split; split; try lia; try done.
      intros (ds2 & c2 & data2 & Hok2 & E & Hlt).
      destruct Hwf as (ds1 & Hok1 & E1). rewrite E1 in E.
      exfalso. by apply (wire_unique_prefix ds1 ds2 c2 data2).
    + assert (Htr : truncated (wire ds ++ c :: data)).
      { exists ds, c, data. repeat split; try done. lia. }
      split; split; try lia; try done.
      intros (ds1 & Hok1 & E1).
      destruct Htr as (ds2 & c2 & data2 & Hok2 & E & Hlt). rewrite E1 in E.
      exfalso. by apply (wire_unique_prefix ds1 ds2 c2 data2).
Qed.

(** ** Zero-freeness of the wire *)

Lemma blk_nonzero d : block_ok d -> Forall (λ b, b <> x00) (blk d).
Proof.
  intros [Hl Hnz]. apply Forall_cons_2; [|done].
  intros E. apply (f_equal u8) in E. rewrite u8_blk_code in E by done.
  rewrite u8_x00 in E. lia.
Qed.

Lemma wire_nonzero ds :
  Forall block_ok ds -> Forall (λ b, b <> x00) (wire ds).
Proof.
  induction 1 as [|d ds Hd _ IH]; [apply Forall_nil_2|].
  rewrite wire_cons. apply Forall_app. split; [by apply blk_nonzero|done].
Qed.

Lemma block_ok_nil : block_ok [].
Proof. split; [simpl; lia | apply Forall_nil_2]. Qed.

Lemma cobs_nonzero p : Forall (λ b, b <> x00) (cobs p).
Proof. apply wire_nonzero, blocks_ok, block_ok_nil. Qed.

Lemma blocks_short p : Forall (λ d, length d <= 254)%nat (blocks [] p).
Proof.
  eapply Forall_impl; [apply blocks_ok, block_ok_nil|]. by intros d [H _].
Qed.

Lemma stray_nonzero pend rest : Forall (λ b, b <> x00) (stray pend rest).
Proof.
  unfold stray. destruct (ends_full pend rest); [|apply Forall_nil_2].
  apply Forall_cons_2; [done | apply Forall_nil_2].
Qed.

(** Outside the image the buffer is untouched; inside, it holds the image. *)
Lemma overlay_lookup M out0 i b :
  overlay M out0 !! i = Some b ->
  (M !! i = Some b /\ (i < length out0)%nat)
  \/ (out0 !! i = Some b /\ (length M <= i)%nat).
Proof.
  unfold overlay. intros H.
  apply lookup_app_Some in H as [H|[Hge H]].
  - left. apply lookup_take_Some in H as [H Hi]. by split.
  - right. rewrite length_take in Hge, H. rewrite lookup_drop in H.
    assert (Hlt : (length M + (i - length out0 `min` length M) < length out0)%nat)
      by (by eapply lookup_lt_Some).
    replace (length M + (i - length out0 `min` length M))%nat with i in H by lia.
    split; [done|lia].
Qed.

(** What the bounded-buffer encoder leaves in the buffer, in general: the
    encoding and, when its last block is full, one byte [0x01] after it, as
    far as they fit; the rest of the buffer is unchanged. *)
Lemma cobs_encode_buf_frame (P out0 : list byte) i :
  (fst (cobs_encode_buf P out0) < i)%nat ->
  snd (cobs_encode_buf P out0) !! i = out0 !! i.
Proof.
  rewrite cobs_encode_buf_blocks. cbn [fst snd]. intros Hi. unfold overlay.
  assert (Hs : (length (stray [] P) <= 1)%nat)
    by (unfold stray; destruct (ends_full [] P); simpl; lia).
  rewrite lookup_app_r by (rewrite length_take, length_app; lia).
  rewrite length_take, length_app, lookup_drop.
  destruct (Nat.le_ge_cases (length out0) i) as [Hge|Hlt].
  - rewrite !lookup_ge_None_2; [done|lia|lia].
  - f_equal. lia.
Qed.

(** ** What the streaming decoder passes to its sink *)

Lemma dec_sink_app l1 : ∀ l2 d,
  dec_sink (l1 ++ l2) d
  = '(d1, tr1) ← dec_sink l1 d;
    '(d2, tr2) ← dec_sink l2 d1;
    Some (d2, tr1 ++ tr2).
Proof.
  induction l1 as [|b l1 IH]; intros l2 d.
  - simpl. by destruct (dec_sink l2 d) as [[d2 tr2]|].
  - cbn [app dec_sink].
    destruct (dec_step b d) as [[d1 tr1]|]; [|done]. cbn [mbind option_bind].
    rewrite IH.
    destruct (dec_sink l1 d1) as [[d2 tr2]|]; [|done]. cbn [mbind option_bind].
    destruct (dec_sink l2 d2) as [[d3 tr3]|]; [|done]. cbn [mbind option_bind].
    by rewrite app_assoc.
Qed.

Lemma held_boundary_fresh d : dec_inv d -> d_code d = 0 -> held d = [].
Proof.
  intros (_ & _ & _ & H0 & _) Hc. unfold held. by rewrite (H0 Hc).
Qed.

(** Data bytes of a block are appended to the buffer, silently. *)
Lemma dec_data_spec data : ∀ d,
  dec_inv d ->
  Forall (λ b, b <> x00) data ->
  d_size d + Z.of_nat (length data) <= d_code d - 1 ->
  exists d',
    dec_sink data d = Some (d', [])
    /\ dec_inv d'
    /\ d_code d' = d_code d
    /\ d_size d' = d_size d + Z.of_nat (length data)
    /\ held d' = held d ++ data.
Proof.
  induction data as [|b data IH]; intros d Hinv Hnz Hroom.
  - exists d. simpl. rewrite Z.add_0_r, app_nil_r.
    split; [done|]. split; [done|]. by split.
  - apply Forall_cons in Hnz as [Hb Hnz].
    pose proof Hinv as (Hl & Hc & Hs & H0 & H1).
    simpl length in Hroom.
    assert (Hb0 : u8 b <> 0) by (intros E; apply Hb, u8_inj; by rewrite E).
    set (d1 := Decoder (d_size d + 1) (d_code d)
                 (<[Z.to_nat (d_size d) := b]> (d_buf d))).
    assert (E1 : dec_step b d = Some (d1, [])).
    { unfold dec_step. z_ne (u8 b) 0. z_ne (d_code d) 0.
      z_ne (d_size d + 1) (d_code d). cbn [orb].
      rewrite store_lt by lia. cbn [mbind option_bind].
      by rewrite wrap8_small by lia. }
    assert (Hinv1 : dec_inv d1).
    { unfold dec_inv, d1. simpl. rewrite length_insert. repeat split; (done || lia). }
    destruct (IH d1 Hinv1 Hnz) as (d2 & E2 & Hinv2 & Hc2 & Hs2 & Hh2).
    { unfold d1. simpl. lia. }
    exists d2. cbn [dec_sink]. rewrite E1. cbn [mbind option_bind].
    rewrite E2. cbn [mbind option_bind app].
    split; [done|]. split; [done|]. split; [done|].
    split; [rewrite Hs2; unfold d1; simpl; lia|].
    rewrite Hh2. unfold held, d1. simpl.
    replace (Z.to_nat (d_size d + 1)) with (S (Z.to_nat (d_size d))) by lia.
    erewrite take_S_r by (apply list_lookup_insert_eq; lia).
    rewrite take_insert_ge by lia. by rewrite <- app_assoc.
Qed.

Lemma length_held d : dec_inv d -> length (held d) = Z.to_nat (d_size d).
Proof.
  intros (Hl & Hc & Hs & H0 & H1). unfold held. rewrite length_take.
  destruct (decide (d_code d = 0)); lia.
Qed.

(** A code byte at a block boundary passes on the block just completed,
    with its implied zero, and opens the next block. *)
Lemma dec_code_spec c d :
  dec_inv d -> at_boundary d -> c <> x00 ->
  let out := held d ++ if prev_code d =? 255 then [] else [x00] in
  exists d',
    dec_step c d = Some (d', [DecCall (Some out) (length out) 0])
    /\ dec_inv d'
    /\ d_code d' = u8 c
    /\ d_size d' = 0.
Proof.
  intros Hinv Hbd Hc0 out.
  pose proof Hinv as (Hl & Hc & Hs & H0 & H1).
  pose proof (u8_range c) as Hcr.
  pose proof (length_held d Hinv) as Hlh.
  assert (Hu : u8 c <> 0) by (intros E; apply Hc0, u8_inj; by rewrite E).
  assert (Hcond : (d_code d =? 0) || (d_size d + 1 =? d_code d) = true).
  { apply orb_true_iff. destruct Hbd as [E|E]; [left|right]; by apply Z.eqb_eq. }
  assert (Hstep : ∀ buf,
    length buf = 255%nat ->
    dec_inv (Decoder 0 (u8 c) buf)).
  { intros buf Hb. unfold dec_inv. simpl. repeat split; (done || lia). }
  unfold dec_step, out, prev_code. z_ne (u8 c) 0. rewrite Hcond.
  destruct (d_code d =? 0) eqn:Ez; cbn [negb andb].
  - cbn [mbind option_bind].
    rewrite load_span_le by lia. cbn [mbind option_bind].
    eexists. change (255 =? 255) with true.
    rewrite app_nil_r, Hlh. split; [reflexivity|].
    split; [by apply Hstep|by split].
  - apply Z.eqb_neq in Ez.
    assert (Hsz : d_size d + 1 = d_code d) by (destruct Hbd; [done|lia]).
    destruct (d_code d =? 255) eqn:Ef; cbn [negb mbind option_bind].
    + rewrite load_span_le by lia. cbn [mbind option_bind].
      eexists. rewrite app_nil_r, Hlh. split; [reflexivity|].
      split; [by apply Hstep|by split].
    + apply Z.eqb_neq in Ef.
      rewrite store_lt by lia. cbn [mbind option_bind].
      rewrite wrap8_small by lia.
      rewrite load_span_le by (rewrite length_insert; lia).
      cbn [mbind option_bind].
      assert (Ht : take (Z.to_nat (d_size d + 1))
                     (<[Z.to_nat (d_size d) := x00]> (d_buf d))
                   = held d ++ [x00]).
      { unfold held.
        replace (Z.to_nat (d_size d + 1)) with (S (Z.to_nat (d_size d))) by lia.
        erewrite take_S_r by (apply list_lookup_insert_eq; lia).
        by rewrite take_insert_ge by lia. }
      rewrite Ht, length_app, Hlh. simpl length.
      replace (Z.to_nat (d_size d + 1)) with (Z.to_nat (d_size d) + 1)%nat by lia.
      eexists. split; [reflexivity|].
      split; [|by split]. apply Hstep. by rewrite length_insert.
Qed.

Lemma data_call_intro x : data_call (DecCall (Some x) (length x) 0).
Proof. split; [done|]. by exists x. Qed.

(** A code byte and the data bytes that follow it, no more than declared. *)
Lemma dec_block_spec c data d :
  dec_inv d -> at_boundary d -> c <> x00 ->
  Forall (λ b, b <> x00) data ->
  Z.of_nat (length data) <= u8 c - 1 ->
  exists d' tr,
    dec_sink (c :: data) d = Some (d', tr)
    /\ dec_inv d'
    /\ d_code d' = u8 c
    /\ d_size d' = Z.of_nat (length data)
    /\ held d' = data
    /\ received tr = held d ++ (if prev_code d =? 255 then [] else [x00])
    /\ Forall data_call tr.
Proof.
  intros Hinv Hbd Hc Hnz Hlen.
  destruct (dec_code_spec c d Hinv Hbd Hc) as (d1 & E1 & Hinv1 & Hc1 & Hs1).
  destruct (dec_data_spec data d1 Hinv1 Hnz) as (d2 & E2 & Hinv2 & Hc2 & Hs2 & Hh2);
    [lia|].
  eexists d2, _. cbn [dec_sink]. rewrite E1. cbn [mbind option_bind].
  rewrite E2. cbn [mbind option_bind]. split; [reflexivity|].
  split; [done|]. split; [congruence|]. split; [lia|].
  split.
  { rewrite Hh2. unfold held at 1. by rewrite Hs1. }
  split.
  { rewrite app_nil_r, received_cons. simpl. by rewrite app_nil_r. }
  rewrite app_nil_r. apply Forall_cons_2; [apply data_call_intro | apply Forall_nil_2].
Qed.

(** A run of complete blocks, from a block boundary to a block boundary:
    what has been passed on, with what is still held, is the payload of
    the blocks. *)
Lemma dec_blocks_spec ds : ∀ d,
  dec_inv d -> at_boundary d -> Forall block_ok ds ->
  exists d' tr,
    dec_sink (wire ds) d = Some (d', tr)
    /\ dec_inv d'
    /\ at_boundary d'
    /\ received tr ++ held d' = held d ++ unstuff (prev_code d) ds
    /\ Forall data_call tr
    /\ ∀ ds', unstuff (prev_code d) (ds ++ ds')
              = unstuff (prev_code d) ds ++ unstuff (prev_code d') ds'.
Proof.
  induction ds as [|d0 ds IH]; intros d Hinv Hbd Hok.
  - exists d, []. simpl. rewrite app_nil_r.
    split; [done|]. split; [done|]. split; [done|]. split; [done|].
    split; [apply Forall_nil_2|done].
  - apply Forall_cons in Hok as [[Hl0 Hnz0] Hok].
    assert (Hc : to_byte (Z.of_nat (S (length d0))) <> x00).
    { intros E. apply (f_equal u8) in E. rewrite u8_blk_code in E by done.
      rewrite u8_x00 in E. lia. }
    destruct (dec_block_spec _ d0 d Hinv Hbd Hc Hnz0)
      as (d1 & tr1 & E1 & Hinv1 & Hc1 & Hs1 & Hh1 & Hr1 & Hf1).
    { rewrite u8_blk_code by done. lia. }
    rewrite u8_blk_code in Hc1 by done.
    assert (Hbd1 : at_boundary d1) by (right; lia).
    assert (Hp1 : prev_code d1 = Z.of_nat (S (length d0))).
    { unfold prev_code. rewrite Hc1. by z_ne (Z.of_nat (S (length d0))) 0. }
    destruct (IH d1 Hinv1 Hbd1 Hok) as (d2 & tr2 & E2 & Hinv2 & Hbd2 & Hr2 & Hf2 & Hch).
    exists d2, (tr1 ++ tr2). rewrite wire_cons, dec_sink_app.
    change (blk d0) with (to_byte (Z.of_nat (S (length d0))) :: d0).
    rewrite E1. cbn [mbind option_bind]. rewrite E2. cbn [mbind option_bind].
    split; [done|]. split; [done|]. split; [done|].
    rewrite Hp1, Hh1 in *.
    split.
    { rewrite received_app, <- app_assoc, Hr2, Hr1. cbn [unstuff].
      by rewrite <- !app_assoc. }
    split; [by apply Forall_app|].
    intros ds'. cbn [app unstuff]. by rewrite Hch, <- !app_assoc.
Qed.

Lemma dec_stop_held d :
  dec_inv d ->
  dec_stop d
  = Some (dec_reset d, [DecCall (Some (held d)) (length (held d)) (dec_left d)]).
Proof.
  intros Hinv. rewrite dec_stop_spec by done. by rewrite length_held.
Qed.

Lemma dec_step_zero d : dec_step x00 d = dec_stop d.
Proof. reflexivity. Qed.

Lemma dec_left_boundary d : dec_inv d -> at_boundary d -> dec_left d = 0%nat.
Proof.
  intros (_ & Hc & Hs & _ & _) [E|E]; unfold dec_left.
  - rewrite E. reflexivity.
  - z_ne (d_code d) 0. cbn [negb]. lia.
Qed.

Lemma at_boundary_reset d : at_boundary (dec_reset d).
Proof. by left. Qed.

(** A whole frame of complete blocks, from the reset state, up to the
    call of [stop]. *)
Lemma dec_frame_spec ds d0 :
  length (d_buf d0) = 255%nat -> Forall block_ok ds ->
  exists d tr,
    dec_sink (wire ds) (dec_reset d0) = Some (d, tr)
    /\ dec_inv d
    /\ dec_stop d
       = Some (dec_reset d, [DecCall (Some (held d)) (length (held d)) 0])
    /\ received tr ++ held d = unstuff 255 ds
    /\ Forall data_call tr.
Proof.
  intros Hl Hok.
  destruct (dec_blocks_spec ds (dec_reset d0) (dec_inv_reset d0 Hl)
              (at_boundary_reset d0) Hok)
    as (d & tr & E & Hinv & Hbd & Hr & Hf & _).
  exists d, tr. split; [done|]. split; [done|].
  split; [by rewrite dec_stop_held, dec_left_boundary|]. by split.
Qed.

Lemma cobs_frame P : sunk (snd (cobs_encode_cb P)) = wire (blocks [] P).
Proof. rewrite cobs_encode_cb_blocks. apply sunk_chunk_calls. Qed.

Lemma blocks_all_ok P : Forall block_ok (blocks [] P).
Proof. apply blocks_ok, block_ok_nil. Qed.

(** * The claims *)

(** C1. Round trip. For every payload [P], the frame produced by the sink
    encoder and the frame left in a large enough buffer by the
    bounded-buffer encoder are the same bytes; decoding that frame, with the
    delimiter [0x00] appended ([delim = true]) or without it, gives back
    exactly [P], both through the sink decoder and through the
    bounded-buffer decoder. *)
Theorem cobs_round_trip (P out1 out2 : list byte) (delim : bool) :
  (fst (cobs_encode_buf P out1) <= length out1)%nat ->
  (length P <= length out2)%nat ->
  let tail := if delim then [x00] else [] in
  let frame := sunk (snd (cobs_encode_cb P)) in
  take (fst (cobs_encode_buf P out1)) (snd (cobs_encode_buf P out1)) = frame
  /\ (exists tr, cobs_decode_cb (frame ++ tail) = Some (length P, tr)
                 /\ received tr = P)
  /\ fst (cobs_decode_buf (frame ++ tail) out2) = length P
  /\ take (length P) (snd (cobs_decode_buf (frame ++ tail) out2)) = P.
Proof.
  intros Hcap1 Hcap2 tail frame.
  assert (Hframe : frame = cobs P).
  { unfold frame. rewrite cobs_encode_cb_blocks. apply sunk_chunk_calls. }
  assert (Hend : frame_end tail).
  { unfold tail. destruct delim; [right; by eexists | by left]. }
  rewrite Hframe. split.
  - rewrite cobs_encode_buf_take.
    rewrite cobs_encode_buf_blocks in Hcap1. simpl in Hcap1.
    by rewrite take_ge.
  - unfold cobs. split.
    + destruct (cobs_decode_cb_blocks (blocks [] P) tail (blocks_short P) Hend)
        as (tr & E & Hr & _).
      rewrite unstuff_cobs in *. by exists tr.
    + rewrite (cobs_decode_buf_blocks (blocks [] P) tail out2 (blocks_short P) Hend).
      rewrite unstuff_cobs. cbn [fst snd]. split; [done|].
      unfold overlay. rewrite (take_ge P) by lia. apply take_app_length.
Qed.

Lemma cobs_round_trip_witness :
  (fst (cobs_encode_buf [x11; x00; x22] (replicate 4 x00))
   <= length (replicate 4 x00))%nat
  /\ (length [x11; x00; x22] <= length (replicate 3 x00))%nat
  /\ take (fst (cobs_encode_buf [x11; x00; x22] (replicate 4 x00)))
          (snd (cobs_encode_buf [x11; x00; x22] (replicate 4 x00)))
     = sunk (snd (cobs_encode_cb [x11; x00; x22]))
  /\ (exists tr,
        cobs_decode_cb (sunk (snd (cobs_encode_cb [x11; x00; x22])) ++ [x00])
        = Some (length [x11; x00; x22], tr)
        /\ received tr = [x11; x00; x22])
  /\ fst (cobs_decode_buf
            (sunk (snd (cobs_encode_cb [x11; x00; x22])) ++ [x00])
            (replicate 3 x00))
     = length [x11; x00; x22]
  /\ take (length [x11; x00; x22])
          (snd (cobs_decode_buf
                  (sunk (snd (cobs_encode_cb [x11; x00; x22])) ++ [x00])
                  (replicate 3 x00)))
     = [x11; x00; x22].
Proof.
  assert (H1 : (fst (cobs_encode_buf [x11; x00; x22] (replicate 4 x00))
                <= length (replicate 4 x00))%nat) by (vm_compute; lia).
  assert (H2 : (length [x11; x00; x22] <= length (replicate 3 x00))%nat)
    by (vm_compute; lia).
  split; [exact H1|]. split; [exact H2|].
  exact (cobs_round_trip [x11; x00; x22] (replicate 4 x00) (replicate 3 x00)
           true H1 H2).
Defined.

(** C2. Streaming equivalence. Starting from the reset state, feeding the
    payload byte by byte to the streaming encoder and then calling [stop]
    never leaves the 256-byte array, and the bytes passed to the sink,
    followed by those of [stop], are the bytes of the bulk sink encoder
    followed by one [0x00]. *)
Theorem streaming_equivalence (P : list byte) (buf0 : encoder) :
  length buf0 = 256%nat ->
  exists buf buf1 buf2 tr_sink tr_stop,
    enc_reset buf0 = Some buf
    /\ enc_sink P buf = Some (buf1, tr_sink)
    /\ enc_stop buf1 = Some (buf2, tr_stop)
    /\ sunk tr_sink ++ sunk tr_stop = sunk (snd (cobs_encode_cb P)) ++ [x00].
Proof.
  intros Hl.
  destruct (enc_state_reset buf0 Hl) as (buf & E0 & Hst).
  destruct (enc_sink_spec P _ _ Hst) as (buf1 & ds & last & E1 & Hst1 & Hb).
  destruct (enc_stop_spec _ _ Hst1) as (buf2 & E2 & Hst2).
  exists buf, buf1, buf2, (map blk ds), [blk last ++ [x00]].
  split; [done|]. split; [done|]. split; [done|].
  rewrite cobs_encode_cb_blocks. cbn [snd]. rewrite sunk_chunk_calls, Hb.
  rewrite wire_snoc. unfold sunk, wire. simpl.
  by rewrite app_nil_r, <- app_assoc.
Qed.

Lemma streaming_equivalence_witness :
  length encoder_init = 256%nat
  /\ exists buf buf1 buf2 tr_sink tr_stop,
       enc_reset encoder_init = Some buf
       /\ enc_sink [x11; x00; x22] buf = Some (buf1, tr_sink)
       /\ enc_stop buf1 = Some (buf2, tr_stop)
       /\ sunk tr_sink ++ sunk tr_stop
          = sunk (snd (cobs_encode_cb [x11; x00; x22])) ++ [x00].
Proof.
  split; [reflexivity|].
  apply (streaming_equivalence [x11; x00; x22] encoder_init). reflexivity.
Defined.

(** C5. Streaming decoder finalization. After any sequence of nonzero
    bytes fed from the reset state, [stop] makes exactly one sink call, with
    the [size] buffered bytes and [left = code ? code - size - 1 : 0], and
    resets the state. The buffered bytes are those of the input: nothing
    when the input is empty, and otherwise the input is a run of complete
    blocks, a last code byte [c] and the data bytes [data] that follow it,
    no more than [c] declares; [stop] passes exactly [data], with
    [left = c - 1 - length data], and all that reached the sink is the
    payload of the blocks. [left] is zero exactly when the bytes consumed
    are a well-formed delimiterless frame, and positive exactly when they
    are a truncated one. *)
Theorem decoder_stop_left (inp : list byte) (d0 : decoder) :
  length (d_buf d0) = 255%nat ->
  Forall (λ b, b <> x00) inp ->
  exists d tr,
    dec_sink inp (dec_reset d0) = Some (d, tr)
    /\ dec_stop d
       = Some (dec_reset d,
               [DecCall (Some (take (Z.to_nat (d_size d)) (d_buf d)))
                  (Z.to_nat (d_size d)) (dec_left d)])
    /\ ((inp = [] /\ tr = []
         /\ take (Z.to_nat (d_size d)) (d_buf d) = [] /\ dec_left d = 0%nat)
        \/ (exists ds c data,
              Forall block_ok ds
              /\ inp = wire ds ++ c :: data
              /\ Z.of_nat (length data) <= u8 c - 1
              /\ take (Z.to_nat (d_size d)) (d_buf d) = data
              /\ Z.to_nat (d_size d) = length data
              /\ dec_left d = Z.to_nat (u8 c - 1 - Z.of_nat (length data))
              /\ received tr ++ data = unstuff 255 (ds ++ [data])))
    /\ (dec_left d = 0%nat <-> wf_frame inp)
    /\ ((0 < dec_left d)%nat <-> truncated inp).
Proof.
  intros Hl Hnz.
  destruct (dec_sink_parsed inp (dec_reset d0) [] Hnz (dec_inv_reset d0 Hl))
    as (d & tr & E & Hinv & Hp).
  { left. by repeat split. }
  exists d, tr. split; [done|]. split; [by apply dec_stop_spec|].
  split; [|exact (parsed_left inp _ _ Hp)].
  cbn [app] in Hp.
  destruct Hp as [(-> & Hc0 & Hs0)|(ds & c & data & Hok & -> & Hc & Hc0 & Hs & Hle & Hdnz)].
  - left. cbn in E. injection E as <- <-. by repeat split.
  - right. exists ds, c, data.
    assert (Hcb : c <> x00) by (intros ->; by rewrite u8_x00 in Hc0).
    destruct (dec_blocks_spec ds (dec_reset d0) (dec_inv_reset d0 Hl)
                (at_boundary_reset d0) Hok)
      as (d1 & tr1 & E1 & Hinv1 & Hbd1 & Hr1 & Hf1 & Hch).
    destruct (dec_block_spec c data d1 Hinv1 Hbd1 Hcb Hdnz)
      as (d2 & tr2 & E2 & Hinv2 & Hc2 & Hs2 & Hh2 & Hr2 & Hf2); [lia|].
    assert (E' : dec_sink (wire ds ++ c :: data) (dec_reset d0)
                 = Some (d2, tr1 ++ tr2)).
    { rewrite dec_sink_app, E1. cbn [mbind option_bind]. by rewrite E2. }
    rewrite E' in E. injection E as <- <-.
    split; [done|]. split; [done|]. split; [lia|].
    split; [exact Hh2|]. split; [lia|].
    split.
    { unfold dec_left. rewrite Hc2, Hs2. z_ne (u8 c) 0. cbn [negb].
      f_equal. lia. }
    change (prev_code (dec_reset d0)) with 255 in Hr1, Hch.
    change (held (dec_reset d0)) with (@nil byte) in Hr1. cbn [app] in Hr1.
    rewrite received_app, Hr2, Hch. cbn [unstuff]. rewrite app_nil_r.
    rewrite <- Hr1. by rewrite <- !app_assoc.
Qed.

Lemma decoder_stop_left_witness :
  length (d_buf decoder_init) = 255%nat
  /\ Forall (λ b, b <> x00) [x02; x11; x04; x22; x33]
  /\ exists d tr,
       dec_sink [x02; x11; x04; x22; x33] (dec_reset decoder_init) = Some (d, tr)
       /\ dec_stop d
          = Some (dec_reset d,
                  [DecCall (Some (take (Z.to_nat (d_size d)) (d_buf d)))
                     (Z.to_nat (d_size d)) (dec_left d)])
       /\ (([x02; x11; x04; x22; x33] = [] /\ tr = []
            /\ take (Z.to_nat (d_size d)) (d_buf d) = [] /\ dec_left d = 0%nat)
           \/ (exists ds c data,
                 Forall block_ok ds
                 /\ [x02; x11; x04; x22; x33] = wire ds ++ c :: data
                 /\ Z.of_nat (length data) <= u8 c - 1
                 /\ take (Z.to_nat (d_size d)) (d_buf d) = data
                 /\ Z.to_nat (d_size d) = length data
                 /\ dec_left d = Z.to_nat (u8 c - 1 - Z.of_nat (length data))
                 /\ received tr ++ data = unstuff 255 (ds ++ [data])))
       /\ (dec_left d = 0%nat <-> wf_frame [x02; x11; x04; x22; x33])
       /\ ((0 < dec_left d)%nat <-> truncated [x02; x11; x04; x22; x33]).
Proof.
  assert (Hnz : Forall (λ b, b <> x00) [x02; x11; x04; x22; x33]).
  { repeat (apply Forall_cons_2; [discriminate|]). apply Forall_nil_2. }
  split; [reflexivity|]. split; [exact Hnz|].
  exact (decoder_stop_left [x02; x11; x04; x22; x33] decoder_init eq_refl Hnz).
Defined.

(** C6. Measurement consistency. The size returned by the bounded-buffer
    encoder does not depend on the output buffer (so capacity 0 and any
    larger capacity agree), and it equals the total returned by the sink
    encoder. *)
Theorem measurement_consistency (P out1 out2 : list byte) :
  fst (cobs_encode_buf P out1) = fst (cobs_encode_buf P out2)
  /\ fst (cobs_encode_buf P []) = fst (cobs_encode_buf P out1)
  /\ fst (cobs_encode_buf P out1) = fst (cobs_encode_cb P).
Proof.
  by rewrite !cobs_encode_buf_blocks, cobs_encode_cb_blocks.
Qed.

(** C7. Zero-free output. Every byte the sink encoder passes to its sink
    is nonzero; every byte of the output buffer that the bounded-buffer
    encoder changes is changed to a nonzero byte, and the part of the
    buffer inside the returned size is zero-free; every chunk the streaming
    encoder flushes while bytes are fed is zero-free, and the chunk of
    [stop] is zero-free up to its last byte, the delimiter. *)
Theorem zero_free_output (P out0 : list byte) (buf0 : encoder) :
  length buf0 = 256%nat ->
  Forall (λ b, b <> x00) (sunk (snd (cobs_encode_cb P)))
  /\ (∀ i b, snd (cobs_encode_buf P out0) !! i = Some b ->
             out0 !! i <> Some b -> b <> x00)
  /\ Forall (λ b, b <> x00)
       (take (fst (cobs_encode_buf P out0)) (snd (cobs_encode_buf P out0)))
  /\ exists buf buf1 buf2 tr_sink body,
       enc_reset buf0 = Some buf
       /\ enc_sink P buf = Some (buf1, tr_sink)
       /\ enc_stop buf1 = Some (buf2, [body ++ [x00]])
       /\ Forall (Forall (λ b, b <> x00)) tr_sink
       /\ Forall (λ b, b <> x00) body.
Proof.
  intros Hl. split.
  { rewrite cobs_encode_cb_blocks. cbn [snd]. rewrite sunk_chunk_calls.
    apply cobs_nonzero. }
  split.
  { intros i b Hi Hne. rewrite cobs_encode_buf_blocks in Hi. cbn [snd] in Hi.
    apply overlay_lookup in Hi as [[Hi _]|[Hi _]]; [|done].
    assert (Hall : Forall (λ b, b <> x00) (cobs P ++ stray [] P))
      by (apply Forall_app; split; [apply cobs_nonzero | apply stray_nonzero]).
    rewrite Forall_lookup in Hall. by apply (Hall i b). }
  split.
  { rewrite cobs_encode_buf_take. apply Forall_take, cobs_nonzero. }
  destruct (enc_state_reset buf0 Hl) as (buf & E0 & Hst).
  destruct (enc_sink_spec P _ _ Hst) as (buf1 & ds & last & E1 & Hst1 & Hb).
  destruct (enc_stop_spec _ _ Hst1) as (buf2 & E2 & Hst2).
  exists buf, buf1, buf2, (map blk ds), (blk last).
  split; [done|]. split; [done|]. split; [done|].
  pose proof (blocks_ok P [] block_ok_nil) as Hok.
  rewrite Hb in Hok. apply Forall_app in Hok as [Hds Hlast].
  apply Forall_cons in Hlast as [Hlast _].
  split; [|by apply blk_nonzero].
  apply Forall_fmap. eapply Forall_impl; [exact Hds|].
  intros d Hd. by apply blk_nonzero.
Qed.

Lemma zero_free_output_witness :
  length encoder_init = 256%nat
  /\ Forall (λ b, b <> x00) (sunk (snd (cobs_encode_cb [x11; x00; x22])))
  /\ (∀ i b, snd (cobs_encode_buf [x11; x00; x22] (replicate 6 x00)) !! i = Some b ->
             replicate 6 x00 !! i <> Some b -> b <> x00)
  /\ Forall (λ b, b <> x00)
       (take (fst (cobs_encode_buf [x11; x00; x22] (replicate 6 x00)))
          (snd (cobs_encode_buf [x11; x00; x22] (replicate 6 x00))))
  /\ exists buf buf1 buf2 tr_sink body,
       enc_reset encoder_init = Some buf
       /\ enc_sink [x11; x00; x22] buf = Some (buf1, tr_sink)
       /\ enc_stop buf1 = Some (buf2, [body ++ [x00]])
       /\ Forall (Forall (λ b, b <> x00)) tr_sink
       /\ Forall (λ b, b <> x00) body.
Proof.
  split; [reflexivity|].
  apply (zero_free_output [x11; x00; x22] (replicate 6 x00) encoder_init).
  reflexivity.
Defined.


(** C10. Streaming decoder state invariant. Whatever bytes are fed from
    the reset state, no access leaves the 255-byte array (the run yields a
    state), the state reached satisfies [code = 0 -> size = 0] and
    [code > 0 -> size <= code - 1], so [size <= 254], and every chunk
    passed to the sink has at most 254 bytes. Since the input is arbitrary
    this holds after every step of every run. *)
Theorem decoder_invariant (inp : list byte) (d0 : decoder) :
  length (d_buf d0) = 255%nat ->
  exists d tr,
    dec_sink inp (dec_reset d0) = Some (d, tr)
    /\ (d_code d = 0 -> d_size d = 0)
    /\ (0 < d_code d -> d_size d <= d_code d - 1)
    /\ 0 <= d_size d <= 254
    /\ length (d_buf d) = 255%nat
    /\ Forall (λ c, dc_size c <= 254)%nat tr.
Proof.
  intros Hl.
  destruct (dec_sink_spec inp (dec_reset d0) (dec_inv_reset d0 Hl))
    as (d & tr & E & (Hlen & Hc & Hs & H0 & H1) & Hf).
  exists d, tr. repeat split; try done.
  destruct (decide (d_code d = 0)); lia.
Qed.

Lemma decoder_invariant_witness :
  length (d_buf decoder_init) = 255%nat
  /\ exists d tr,
       dec_sink [xff; x00; x01; x05; x00; x00; x02] (dec_reset decoder_init)
         = Some (d, tr)
       /\ (d_code d = 0 -> d_size d = 0)
       /\ (0 < d_code d -> d_size d <= d_code d - 1)
       /\ 0 <= d_size d <= 254
       /\ length (d_buf d) = 255%nat
       /\ Forall (λ c, dc_size c <= 254)%nat tr.
Proof.
  split; [reflexivity|].
  apply (decoder_invariant [xff; x00; x01; x05; x00; x00; x02] decoder_init).
  reflexivity.
Defined.

(** C3. Malformed detection, at the input [0x03 0x11]. The code byte
    declares two data bytes and only one follows, so the input is
    truncated. The bounded-buffer decoder returns 0; the sink decoder
    returns 1, the length decoded so far, and makes no call that reports
    missing bytes. In the sink decoder the [if (block) --block;] that closes
    every iteration also runs after the branch that copies data, where
    [block] already counts the data bytes still missing. *)
Theorem decode_cb_truncated_returns_length :
  truncated [x03; x11]
  /\ cobs_decode_cb [x03; x11] = Some (1%nat, [DecCall (Some [x11]) 1 0])
  /\ cobs_decode_buf [x03; x11] [xaa; xaa] = (0%nat, [x11; xaa]).
Proof.
  split; [|split; vm_compute; reflexivity].
  exists [], x03, [x11]. split; [apply Forall_nil_2|]. split; [done|].
  vm_compute. reflexivity.
Qed.

(** C4. Missing-byte count, at the input [0x04 0x11]. Two of the three
    declared data bytes are absent, and the streaming decoder reports
    [left = 2] from [stop]; the last call of the sink decoder is
    [(nullptr, 0, 1)]. At [0x03 0x11], where one byte is absent, it makes no
    such call at all. *)
Theorem decode_cb_missing_count_short :
  cobs_decode_cb [x04; x11]
    = Some (0%nat, [DecCall (Some [x11]) 1 0; DecCall None 0 1])
  /\ ('(d, _) ← dec_sink [x04; x11] decoder_init; '(_, tr) ← dec_stop d; Some tr)
     = Some [DecCall (Some [x11]) 1 2]
  /\ cobs_decode_cb [x03; x11] = Some (1%nat, [DecCall (Some [x11]) 1 0])
  /\ ('(d, _) ← dec_sink [x03; x11] decoder_init; '(_, tr) ← dec_stop d; Some tr)
     = Some [DecCall (Some [x11]) 1 1].
Proof.
  repeat split; vm_compute; reflexivity.
Qed.

(** C8. Bounded-buffer write frame, at a payload of 254 bytes [0x01] and a
    256-byte buffer of zeros. The returned size is 255, and the byte at
    offset 255 has been overwritten with [0x01]: when the input ends right
    after a full block, no next block is counted, yet the store of its code
    after the loop is still made. *)
Theorem encode_buf_writes_past_required :
  cobs_encode_buf (replicate 254 x01) (replicate 256 x00)
  = (255%nat, xff :: replicate 254 x01 ++ [x01]).
Proof.
  vm_compute. reflexivity.
Qed.

(** * Further properties *)

(** ** Streaming round trips *)

(** X9. Streaming round trip, delimiter in the stream. Fed the frame of a
    payload followed by [0x00], a reset streaming decoder passes exactly the
    payload to its sink, in calls that all carry data and report nothing
    missing, and is back in the reset state. *)
Theorem decoder_round_trip (P : list byte) (d0 : decoder) :
  length (d_buf d0) = 255%nat ->
  exists d tr,
    dec_sink (sunk (snd (cobs_encode_cb P)) ++ [x00]) (dec_reset d0) = Some (d, tr)
    /\ received tr = P
    /\ Forall data_call tr
    /\ d_code d = 0 /\ d_size d = 0.
Proof.
  intros Hl. rewrite cobs_frame.
  destruct (dec_frame_spec (blocks [] P) d0 Hl (blocks_all_ok P))
    as (d & tr & E & Hinv & Es & Hr & Hf).
  exists (dec_reset d), (tr ++ [DecCall (Some (held d)) (length (held d)) 0]).
  rewrite dec_sink_app, E. cbn [mbind option_bind dec_sink].
  rewrite dec_step_zero, Es. cbn [mbind option_bind].
  rewrite app_nil_r. split; [done|].
  split.
  { rewrite received_app, received_cons. simpl. rewrite !app_nil_r, Hr.
    apply unstuff_cobs. }
  split; [|done].
  apply Forall_app. split; [done|].
  apply Forall_cons_2; [apply data_call_intro | apply Forall_nil_2].
Qed.

Lemma decoder_round_trip_witness :
  length (d_buf decoder_init) = 255%nat
  /\ exists d tr,
       dec_sink (sunk (snd (cobs_encode_cb [x11; x00; x22])) ++ [x00])
         (dec_reset decoder_init) = Some (d, tr)
       /\ received tr = [x11; x00; x22]
       /\ Forall data_call tr
       /\ d_code d = 0 /\ d_size d = 0.
Proof.
  split; [reflexivity|].
  apply (decoder_round_trip [x11; x00; x22] decoder_init). reflexivity.
Defined.

(** X10. Streaming round trip, explicit [stop]. Fed the frame of a payload
    without delimiter and then stopped, a reset streaming decoder passes
    exactly the payload to its sink; the call made by [stop] reports
    [left = 0], and the decoder is reset. *)
Theorem decoder_round_trip_stop (P : list byte) (d0 : decoder) :
  length (d_buf d0) = 255%nat ->
  exists d tr last,
    dec_sink (sunk (snd (cobs_encode_cb P))) (dec_reset d0) = Some (d, tr)
    /\ dec_stop d = Some (dec_reset d, [last])
    /\ dc_left last = 0%nat
    /\ received (tr ++ [last]) = P
    /\ Forall data_call (tr ++ [last]).
Proof.
  intros Hl. rewrite cobs_frame.
  destruct (dec_frame_spec (blocks [] P) d0 Hl (blocks_all_ok P))
    as (d & tr & E & Hinv & Es & Hr & Hf).
  exists d, tr, (DecCall (Some (held d)) (length (held d)) 0).
  split; [done|]. split; [done|]. split; [done|].
  split.
  { rewrite received_app, received_cons. simpl. rewrite !app_nil_r, Hr.
    apply unstuff_cobs. }
  apply Forall_app. split; [done|].
  apply Forall_cons_2; [apply data_call_intro | apply Forall_nil_2].
Qed.

Lemma decoder_round_trip_stop_witness :
  length (d_buf decoder_init) = 255%nat
  /\ exists d tr last,
       dec_sink (sunk (snd (cobs_encode_cb [x11; x00; x22])))
         (dec_reset decoder_init) = Some (d, tr)
       /\ dec_stop d = Some (dec_reset d, [last])
       /\ dc_left last = 0%nat
       /\ received (tr ++ [last]) = [x11; x00; x22]
       /\ Forall data_call (tr ++ [last]).
Proof.
  split; [reflexivity|].
  apply (decoder_round_trip_stop [x11; x00; x22] decoder_init). reflexivity.
Defined.

(** X11. Streaming decoder on a truncated frame. After complete blocks, a
    code byte [c] and fewer data bytes than it declares (all bytes
    nonzero), [stop] passes the data bytes of the incomplete block with
    [left] equal to the number of declared bytes that are absent,
    [c - 1 - length data]; a [0x00] arriving at that point does the same.
    Everything decoded so far has reached the sink, and the decoder is
    reset. *)
Theorem decoder_truncated_left (ds : list (list byte)) (c : byte)
    (data : list byte) (d0 : decoder) :
  length (d_buf d0) = 255%nat ->
  Forall block_ok ds ->
  Forall (λ b, b <> x00) data ->
  Z.of_nat (length data) < u8 c - 1 ->
  let last := DecCall (Some data) (length data)
                (Z.to_nat (u8 c - 1 - Z.of_nat (length data))) in
  exists d tr,
    dec_sink (wire ds ++ c :: data) (dec_reset d0) = Some (d, tr)
    /\ dec_stop d = Some (dec_reset d, [last])
    /\ dec_sink ((wire ds ++ c :: data) ++ [x00]) (dec_reset d0)
       = Some (dec_reset d, tr ++ [last])
    /\ received (tr ++ [last]) = unstuff 255 (ds ++ [data])
    /\ Forall data_call tr.
Proof.
  intros Hl Hok Hnz Hlt last.
  pose proof (u8_range c) as Hcr.
  assert (Hc : c <> x00) by (intros ->; rewrite u8_x00 in Hlt; lia).
  destruct (dec_blocks_spec ds (dec_reset d0) (dec_inv_reset d0 Hl)
              (at_boundary_reset d0) Hok)
    as (d1 & tr1 & E1 & Hinv1 & Hbd1 & Hr1 & Hf1 & Hch).
  destruct (dec_block_spec c data d1 Hinv1 Hbd1 Hc Hnz)
    as (d2 & tr2 & E2 & Hinv2 & Hc2 & Hs2 & Hh2 & Hr2 & Hf2); [lia|].
  assert (Es : dec_stop d2 = Some (dec_reset d2, [last])).
  { rewrite dec_stop_held by done. unfold dec_left, last.
    rewrite Hh2, Hc2, Hs2. z_ne (u8 c) 0. cbn [negb].
    do 5 f_equal. lia. }
  assert (E : dec_sink (wire ds ++ c :: data) (dec_reset d0)
              = Some (d2, tr1 ++ tr2)).
  { rewrite dec_sink_app, E1. cbn [mbind option_bind]. by rewrite E2. }
  exists d2, (tr1 ++ tr2). split; [done|]. split; [done|].
  split.
  { rewrite dec_sink_app, E. cbn [mbind option_bind dec_sink].
    rewrite dec_step_zero, Es. cbn [mbind option_bind]. by rewrite app_nil_r. }
  split; [|by apply Forall_app].
  rewrite !received_app, Hr2. unfold last at 1. rewrite received_cons.
  cbn [dc_data default received map concat]. rewrite app_nil_r.
  change (prev_code (dec_reset d0)) with 255 in Hr1, Hch.
  rewrite Hch. cbn [unstuff]. rewrite app_nil_r.
  change (held (dec_reset d0)) with (@nil byte) in Hr1. cbn [app] in Hr1.
  rewrite <- Hr1. unfold id. by rewrite <- !app_assoc.
Qed.

Lemma decoder_truncated_left_witness :
  length (d_buf decoder_init) = 255%nat
  /\ Forall block_ok [[x11]]
  /\ Forall (λ b, b <> x00) [x22]
  /\ Z.of_nat (length [x22]) < u8 x05 - 1
  /\ exists d tr,
       dec_sink (wire [[x11]] ++ x05 :: [x22]) (dec_reset decoder_init)
         = Some (d, tr)
       /\ dec_stop d
          = Some (dec_reset d,
                  [DecCall (Some [x22]) (length [x22])
                     (Z.to_nat (u8 x05 - 1 - Z.of_nat (length [x22])))])
       /\ dec_sink ((wire [[x11]] ++ x05 :: [x22]) ++ [x00])
            (dec_reset decoder_init)
          = Some (dec_reset d,
                  tr ++ [DecCall (Some [x22]) (length [x22])
                           (Z.to_nat (u8 x05 - 1 - Z.of_nat (length [x22])))])
       /\ received (tr ++ [DecCall (Some [x22]) (length [x22])
                             (Z.to_nat (u8 x05 - 1 - Z.of_nat (length [x22])))])
          = unstuff 255 ([[x11]] ++ [[x22]])
       /\ Forall data_call tr.
Proof.
  assert (H1 : Forall block_ok [[x11]]).
  { apply Forall_cons_2; [|apply Forall_nil_2].
    split; [simpl; lia|]. apply Forall_cons_2; [discriminate|apply Forall_nil_2]. }
  assert (H2 : Forall (λ b, b <> x00) [x22])
    by (apply Forall_cons_2; [discriminate|apply Forall_nil_2]).
  assert (H3 : Z.of_nat (length [x22]) < u8 x05 - 1) by (vm_compute; reflexivity).
  split; [reflexivity|]. split; [exact H1|]. split; [exact H2|].
  split; [exact H3|].
  exact (decoder_truncated_left [[x11]] x05 [x22] decoder_init eq_refl H1 H2 H3).
Defined.

(** X12. Resynchronisation. Whatever bytes a streaming decoder has
    consumed, malformed or not, a [0x00] puts it back in the reset state:
    the frame of a payload that follows, with its delimiter, is decoded to
    exactly that payload. *)
Theorem decoder_resync (junk P : list byte) (d0 : decoder) :
  length (d_buf d0) = 255%nat ->
  exists d1 tr1 d2 tr2,
    dec_sink (junk ++ [x00]) (dec_reset d0) = Some (d1, tr1)
    /\ d_code d1 = 0 /\ d_size d1 = 0
    /\ dec_sink ((junk ++ [x00]) ++ sunk (snd (cobs_encode_cb P)) ++ [x00])
         (dec_reset d0)
       = Some (d2, tr1 ++ tr2)
    /\ received tr2 = P
    /\ Forall data_call tr2
    /\ d_code d2 = 0 /\ d_size d2 = 0.
Proof.
  intros Hl.
  destruct (dec_sink_spec junk (dec_reset d0) (dec_inv_reset d0 Hl))
    as (d & tr & E & Hinv & _).
  pose proof Hinv as (Hlen & _).
  assert (E1 : dec_sink (junk ++ [x00]) (dec_reset d0)
               = Some (dec_reset d,
                       tr ++ [DecCall (Some (held d)) (length (held d)) (dec_left d)])).
  { rewrite dec_sink_app, E. cbn [mbind option_bind dec_sink].
    rewrite dec_step_zero, dec_stop_held by done. cbn [mbind option_bind].
    by rewrite app_nil_r. }
  destruct (dec_frame_spec (blocks [] P) d Hlen (blocks_all_ok P))
    as (d' & tr' & E' & Hinv' & Es' & Hr' & Hf').
  eexists _, _, (dec_reset d'),
    (tr' ++ [DecCall (Some (held d')) (length (held d')) 0]).
  split; [exact E1|]. split; [done|]. split; [done|].
  split.
  { rewrite dec_sink_app, E1. cbn [mbind option_bind].
    rewrite cobs_frame, dec_sink_app, E'. cbn [mbind option_bind dec_sink].
    rewrite dec_step_zero, Es'. cbn [mbind option_bind].
    by rewrite app_nil_r. }
  split.
  { rewrite received_app, received_cons. simpl. rewrite !app_nil_r, Hr'.
    apply unstuff_cobs. }
  split; [|done].
  apply Forall_app. split; [done|].
  apply Forall_cons_2; [apply data_call_intro | apply Forall_nil_2].
Qed.

Lemma decoder_resync_witness :
  length (d_buf decoder_init) = 255%nat
  /\ exists d1 tr1 d2 tr2,
       dec_sink ([x09; x01; x00; x04; x33] ++ [x00]) (dec_reset decoder_init)
         = Some (d1, tr1)
       /\ d_code d1 = 0 /\ d_size d1 = 0
       /\ dec_sink (([x09; x01; x00; x04; x33] ++ [x00])
                     ++ sunk (snd (cobs_encode_cb [x11; x00; x22])) ++ [x00])
            (dec_reset decoder_init)
          = Some (d2, tr1 ++ tr2)
       /\ received tr2 = [x11; x00; x22]
       /\ Forall data_call tr2
       /\ d_code d2 = 0 /\ d_size d2 = 0.
Proof.
  split; [reflexivity|].
  apply (decoder_resync [x09; x01; x00; x04; x33] [x11; x00; x22] decoder_init).
  reflexivity.
Defined.

(** ** Fragmented streams and reuse *)

Lemma enc_sink_app l1 : ∀ l2 buf,
  enc_sink (l1 ++ l2) buf
  = '(buf1, tr1) ← enc_sink l1 buf;
    '(buf2, tr2) ← enc_sink l2 buf1;
    Some (buf2, tr1 ++ tr2).
Proof.
  induction l1 as [|b l1 IH]; intros l2 buf.
  - simpl. by destruct (enc_sink l2 buf) as [[b2 tr2]|].
  - cbn [app enc_sink].
    destruct (enc_step b buf) as [[b1 tr1]|]; [|done]. cbn [mbind option_bind].
    rewrite IH.
    destruct (enc_sink l1 b1) as [[b2 tr2]|]; [|done]. cbn [mbind option_bind].
    destruct (enc_sink l2 b2) as [[b3 tr3]|]; [|done]. cbn [mbind option_bind].
    by rewrite app_assoc.
Qed.

Lemma enc_feed_concat frags : ∀ buf,
  enc_feed frags buf = enc_sink (concat frags) buf.
Proof.
  induction frags as [|f frags IH]; intros buf; [done|].
  cbn [enc_feed concat]. rewrite enc_sink_app.
  destruct (enc_sink f buf) as [[b1 tr1]|]; [|done]. cbn [mbind option_bind].
  by rewrite IH.
Qed.

Lemma dec_feed_concat frags : ∀ d,
  dec_feed frags d = dec_sink (concat frags) d.
Proof.
  induction frags as [|f frags IH]; intros d; [done|].
  cbn [dec_feed concat]. rewrite dec_sink_app.
  destruct (dec_sink f d) as [[d1 tr1]|]; [|done]. cbn [mbind option_bind].
  by rewrite IH.
Qed.

Lemma sunk_app tr1 tr2 : sunk (tr1 ++ tr2) = sunk tr1 ++ sunk tr2.
Proof. apply concat_app. Qed.

Lemma sunk_map_blk ds : sunk (map blk ds) = wire ds.
Proof. reflexivity. Qed.

(** One frame through the streaming encoder, on the level of bytes. *)
Lemma enc_frame_spec P buf :
  enc_state buf [] ->
  exists buf1 buf2 tr last,
    enc_sink P buf = Some (buf1, tr)
    /\ enc_stop buf1 = Some (buf2, [last])
    /\ sunk tr ++ last = wire (blocks [] P) ++ [x00]
    /\ enc_state buf2 [].
Proof.
  intros Hst.
  destruct (enc_sink_spec P _ _ Hst) as (buf1 & ds & last & E1 & Hst1 & Hb).
  destruct (enc_stop_spec _ _ Hst1) as (buf2 & E2 & Hst2).
  exists buf1, buf2, (map blk ds), (blk last ++ [x00]).
  split; [done|]. split; [done|]. split; [|done].
  by rewrite sunk_map_blk, Hb, wire_snoc, <- app_assoc.
Qed.

(** X13. Fragmented input to the streaming encoder. However the payload
    is cut into pieces handed to [sink] one after the other, the bytes that
    reach the sink, followed by those of [stop], are the bulk encoding of
    the whole payload followed by [0x00]. *)
Theorem encoder_fragments (frags : list (list byte)) (buf0 : encoder) :
  length buf0 = 256%nat ->
  exists buf buf1 buf2 tr_sink tr_stop,
    enc_reset buf0 = Some buf
    /\ enc_feed frags buf = Some (buf1, tr_sink)
    /\ enc_stop buf1 = Some (buf2, tr_stop)
    /\ sunk tr_sink ++ sunk tr_stop
       = sunk (snd (cobs_encode_cb (concat frags))) ++ [x00].
Proof.
  intros Hl.
  destruct (enc_state_reset buf0 Hl) as (buf & E0 & Hst).
  destruct (enc_frame_spec (concat frags) buf Hst)
    as (buf1 & buf2 & tr & last & E1 & E2 & Hs & _).
  exists buf, buf1, buf2, tr, [last].
  split; [done|]. split; [by rewrite enc_feed_concat|]. split; [done|].
  rewrite cobs_frame. unfold sunk at 2. simpl. by rewrite app_nil_r.
Qed.

Lemma encoder_fragments_witness :
  length encoder_init = 256%nat
  /\ exists buf buf1 buf2 tr_sink tr_stop,
       enc_reset encoder_init = Some buf
       /\ enc_feed [[x11]; []; [x00; x22]] buf = Some (buf1, tr_sink)
       /\ enc_stop buf1 = Some (buf2, tr_stop)
       /\ sunk tr_sink ++ sunk tr_stop
          = sunk (snd (cobs_encode_cb (concat [[x11]; []; [x00; x22]]))) ++ [x00].
Proof.
  split; [reflexivity|].
  apply (encoder_fragments [[x11]; []; [x00; x22]] encoder_init). reflexivity.
Defined.

(** X14. Fragmented input to the streaming decoder. However a frame and
    its delimiter are cut into pieces handed to [sink] one after the
    other, a reset decoder passes exactly the payload to its sink and ends
    in the reset state. *)
Theorem decoder_fragments (frags : list (list byte)) (P : list byte)
    (d0 : decoder) :
  length (d_buf d0) = 255%nat ->
  concat frags = sunk (snd (cobs_encode_cb P)) ++ [x00] ->
  exists d tr,
    dec_feed frags (dec_reset d0) = Some (d, tr)
    /\ received tr = P
    /\ Forall data_call tr
    /\ d_code d = 0 /\ d_size d = 0.
Proof.
  intros Hl Hc. rewrite dec_feed_concat, Hc, cobs_frame.
  destruct (dec_frame_spec (blocks [] P) d0 Hl (blocks_all_ok P))
    as (d & tr & E & Hinv & Es & Hr & Hf).
  exists (dec_reset d), (tr ++ [DecCall (Some (held d)) (length (held d)) 0]).
  rewrite dec_sink_app, E. cbn [mbind option_bind dec_sink].
  rewrite dec_step_zero, Es. cbn [mbind option_bind].
  rewrite app_nil_r. split; [done|].
  split.
  { rewrite received_app, received_cons. simpl. rewrite !app_nil_r, Hr.
    apply unstuff_cobs. }
  split; [|done].
  apply Forall_app. split; [done|].
  apply Forall_cons_2; [apply data_call_intro | apply Forall_nil_2].
Qed.

Lemma decoder_fragments_witness :
  length (d_buf decoder_init) = 255%nat
  /\ concat [[x02]; [x11; x02]; []; [x22; x00]]
     = sunk (snd (cobs_encode_cb [x11; x00; x22])) ++ [x00]
  /\ exists d tr,
       dec_feed [[x02]; [x11; x02]; []; [x22; x00]] (dec_reset decoder_init)
         = Some (d, tr)
       /\ received tr = [x11; x00; x22]
       /\ Forall data_call tr
       /\ d_code d = 0 /\ d_size d = 0.
Proof.
  assert (H : concat [[x02]; [x11; x02]; []; [x22; x00]]
              = sunk (snd (cobs_encode_cb [x11; x00; x22])) ++ [x00])
    by (vm_compute; reflexivity).
  split; [reflexivity|]. split; [exact H|].
  exact (decoder_fragments [[x02]; [x11; x02]; []; [x22; x00]]
           [x11; x00; x22] decoder_init eq_refl H).
Defined.

(** X15. Reuse of the streaming encoder. After [stop] the encoder is in
    the reset state again (its count [buf[0]] is zero): a second payload
    fed to the same object is encoded as by the bulk encoder, whatever the
    first one was. *)
Theorem encoder_reuse (P1 P2 : list byte) (buf0 : encoder) :
  length buf0 = 256%nat ->
  exists buf b1 b2 b3 b4 t1 s1 t2 s2,
    enc_reset buf0 = Some buf
    /\ enc_sink P1 buf = Some (b1, t1)
    /\ enc_stop b1 = Some (b2, s1)
    /\ b2 !! 0%nat = Some x00
    /\ enc_sink P2 b2 = Some (b3, t2)
    /\ enc_stop b3 = Some (b4, s2)
    /\ sunk (t1 ++ s1) = sunk (snd (cobs_encode_cb P1)) ++ [x00]
    /\ sunk (t2 ++ s2) = sunk (snd (cobs_encode_cb P2)) ++ [x00].
Proof.
  intros Hl.
  destruct (enc_state_reset buf0 Hl) as (buf & E0 & Hst).
  destruct (enc_frame_spec P1 buf Hst)
    as (b1 & b2 & t1 & l1 & E1 & E2 & Hs1 & Hst2).
  destruct (enc_frame_spec P2 b2 Hst2)
    as (b3 & b4 & t2 & l2 & E3 & E4 & Hs2 & _).
  exists buf, b1, b2, b3, b4, t1, [l1], t2, [l2].
  split; [done|]. split; [done|]. split; [done|].
  split. { destruct Hst2 as (tl & -> & _). reflexivity. }
  split; [done|]. split; [done|].
  rewrite !sunk_app, !cobs_frame. unfold sunk at 2 4. simpl.
  by rewrite !app_nil_r.
Qed.

Lemma encoder_reuse_witness :
  length encoder_init = 256%nat
  /\ exists buf b1 b2 b3 b4 t1 s1 t2 s2,
       enc_reset encoder_init = Some buf
       /\ enc_sink [x11; x22; x33] buf = Some (b1, t1)
       /\ enc_stop b1 = Some (b2, s1)
       /\ b2 !! 0%nat = Some x00
       /\ enc_sink [x00; x44] b2 = Some (b3, t2)
       /\ enc_stop b3 = Some (b4, s2)
       /\ sunk (t1 ++ s1) = sunk (snd (cobs_encode_cb [x11; x22; x33])) ++ [x00]
       /\ sunk (t2 ++ s2) = sunk (snd (cobs_encode_cb [x00; x44])) ++ [x00].
Proof.
  split; [reflexivity|].
  apply (encoder_reuse [x11; x22; x33] [x00; x44] encoder_init). reflexivity.
Defined.

(** X16. Chunks of the streaming encoder. Every chunk flushed while bytes
    are fed is one whole block: at most 255 bytes, the first of which is
    the length of the chunk. The chunk of [stop] is a block followed by the
    delimiter: at most 256 bytes, the first of which is its length less
    one. *)
Theorem encoder_chunks (P : list byte) (buf0 : encoder) :
  length buf0 = 256%nat ->
  exists buf buf1 buf2 tr_sink last,
    enc_reset buf0 = Some buf
    /\ enc_sink P buf = Some (buf1, tr_sink)
    /\ enc_stop buf1 = Some (buf2, [last])
    /\ Forall (λ ch, (length ch <= 255)%nat
                     /\ u8 <$> head ch = Some (Z.of_nat (length ch))) tr_sink
    /\ (length last <= 256)%nat
    /\ u8 <$> head last = Some (Z.of_nat (length last) - 1).
Proof.
  intros Hl.
  destruct (enc_state_reset buf0 Hl) as (buf & E0 & Hst).
  destruct (enc_sink_spec P _ _ Hst) as (buf1 & ds & lst & E1 & Hst1 & Hb).
  destruct (enc_stop_spec _ _ Hst1) as (buf2 & E2 & Hst2).
  exists buf, buf1, buf2, (map blk ds), (blk lst ++ [x00]).
  split; [done|]. split; [done|]. split; [done|].
  pose proof (blocks_all_ok P) as Hok. rewrite Hb in Hok.
  apply Forall_app in Hok as [Hds Hlast].
  apply Forall_cons in Hlast as [[Hlast _] _].
  split.
  { apply Forall_fmap. eapply Forall_impl; [exact Hds|].
    intros d [Hd _]. simpl. rewrite u8_blk_code by done. split; [lia|done]. }
  rewrite length_app, length_blk. simpl.
  rewrite u8_blk_code by done. split; [lia|]. f_equal. lia.
Qed.

Lemma encoder_chunks_witness :
  length encoder_init = 256%nat
  /\ exists buf buf1 buf2 tr_sink last,
       enc_reset encoder_init = Some buf
       /\ enc_sink [x11; x00; x22] buf = Some (buf1, tr_sink)
       /\ enc_stop buf1 = Some (buf2, [last])
       /\ Forall (λ ch, (length ch <= 255)%nat
                        /\ u8 <$> head ch = Some (Z.of_nat (length ch))) tr_sink
       /\ (length last <= 256)%nat
       /\ u8 <$> head last = Some (Z.of_nat (length last) - 1).
Proof.
  split; [reflexivity|].
  apply (encoder_chunks [x11; x00; x22] encoder_init). reflexivity.
Defined.

(** ** Sizes *)

Lemma length_wire_blocks_lower rest : ∀ pend,
  (length pend + length rest + 1 <= length (wire (blocks pend rest)))%nat.
Proof.
  induction rest as [|b rest IH]; intros pend.
  - simpl. rewrite app_nil_r. simpl. lia.
  - cbn [blocks]. destruct (is_zero b).
    + rewrite wire_app, length_app. specialize (IH []).
      destruct (length pend =? 254)%nat; unfold wire at 1; simpl;
        rewrite ?length_app; simpl in *; lia.
    + destruct (length pend =? 254)%nat.
      * rewrite wire_cons, length_app, length_blk. specialize (IH [b]).
        simpl in *. lia.
      * specialize (IH (pend ++ [b])). rewrite length_app in IH. simpl in *. lia.
Qed.

Lemma length_wire_blocks_upper rest : ∀ pend,
  (length pend <= 254)%nat ->
  (254 * length (wire (blocks pend rest))
   <= 255 * length rest + 254 * (length pend + 1) + length pend)%nat.
Proof.
  induction rest as [|b rest IH]; intros pend Hp.
  - simpl. rewrite app_nil_r. simpl. lia.
  - cbn [blocks]. destruct (is_zero b).
    + rewrite wire_app, length_app. specialize (IH [] ltac:(simpl; lia)).
      destruct (length pend =? 254)%nat eqn:E.
      * apply Nat.eqb_eq in E. unfold wire at 1. simpl.
        rewrite ?length_app. simpl in *. lia.
      * apply Nat.eqb_neq in E. unfold wire at 1. simpl.
        rewrite ?length_app. simpl in *. lia.
    + destruct (length pend =? 254)%nat eqn:E.
      * apply Nat.eqb_eq in E.
        rewrite wire_cons, length_app, length_blk.
        specialize (IH [b] ltac:(simpl; lia)). simpl in *. lia.
      * apply Nat.eqb_neq in E.
        specialize (IH (pend ++ [b])). rewrite length_app in IH.
        simpl in *. lia.
Qed.

(** X1. Size of the encoding. The size returned by either bulk encoder is
    at least the payload length plus one and at most the payload length
    plus one plus one byte for every 254 payload bytes. *)
Theorem encode_size_bounds (P out : list byte) :
  (length P + 1 <= fst (cobs_encode_cb P) <= length P + 1 + length P / 254)%nat
  /\ (length P + 1 <= fst (cobs_encode_buf P out)
       <= length P + 1 + length P / 254)%nat.
Proof.
  rewrite cobs_encode_buf_blocks, cobs_encode_cb_blocks. cbn [fst].
  cut (length P + 1 <= length (cobs P) <= length P + 1 + length P / 254)%nat;
    [by split|].
  unfold cobs.
  pose proof (length_wire_blocks_lower P []) as Hlo.
  pose proof (length_wire_blocks_upper P [] ltac:(simpl; lia)) as Hhi.
  simpl in Hlo, Hhi. split; [lia|].
  pose proof (Nat.div_mod (length P) 254 ltac:(lia)) as Hdm.
  pose proof (Nat.mod_upper_bound (length P) 254 ltac:(lia)) as Hm.
  lia.
Qed.

(** ** The bulk encoders, call by call and byte by byte *)

(** X2. Calls of the sink encoder. The sink is called an even number of
    times, alternately with one code byte and with a span of the input: the
    code is the length of the span plus one, the span has at most 254
    bytes, none of them zero, and the spans, with a zero put back after
    every span but the last whose code is not [0xFF], make up the
    payload. *)
Theorem encode_cb_calls (P : list byte) :
  exists ds,
    snd (cobs_encode_cb P)
    = concat (map (λ d, [[to_byte (Z.of_nat (length d) + 1)]; d]) ds)
    /\ Forall (λ d, (length d <= 254)%nat /\ Forall (λ b, b <> x00) d) ds
    /\ unstuff 255 ds = P
    /\ ds <> [].
Proof.
  exists (blocks [] P). rewrite cobs_encode_cb_blocks. cbn [snd].
  split.
  { unfold chunk_calls. f_equal. apply map_ext. intros d.
    by replace (Z.of_nat (S (length d))) with (Z.of_nat (length d) + 1) by lia. }
  split; [apply blocks_all_ok|]. split; [apply unstuff_cobs|apply blocks_nonempty].
Qed.

(** X3. Truncation by the bounded-buffer encoder. Whatever the capacity,
    the buffer keeps its length, the part of it inside the returned size is
    a prefix of what the sink encoder emits (all of it when the capacity
    suffices), and no byte at an offset above the returned size is
    changed. *)
Theorem encode_buf_prefix (P out : list byte) :
  let r := cobs_encode_buf P out in
  length (snd r) = length out
  /\ take (fst r) (snd r) = take (length out) (sunk (snd (cobs_encode_cb P)))
  /\ ∀ i, (fst r < i)%nat -> snd r !! i = out !! i.
Proof.
  cbn zeta. split.
  { rewrite cobs_encode_buf_blocks. apply length_overlay. }
  split; [by rewrite cobs_encode_buf_take, cobs_frame|].
  apply cobs_encode_buf_frame.
Qed.

(** ** The bulk decoders on any input *)

(** X4. Bulk decoding of a sequence of blocks. Both bulk decoders turn any
    sequence of blocks, each a code byte followed by [code - 1] bytes of
    any value, into the payload the blocks stand for and return its
    length; decoding stops at the end of the input or at the first code
    byte [0x00], and what follows that byte is ignored. The sink decoder
    reports nothing missing. *)
Theorem decode_blocks (ds : list (list byte)) (tail out : list byte) :
  Forall (λ d, length d <= 254)%nat ds ->
  tail = [] \/ (exists t, tail = x00 :: t) ->
  (exists tr,
     cobs_decode_cb (wire ds ++ tail) = Some (length (unstuff 255 ds), tr)
     /\ received tr = unstuff 255 ds
     /\ Forall (λ c, dc_left c = 0%nat /\ is_Some (dc_data c)) tr)
  /\ cobs_decode_buf (wire ds ++ tail) out
     = (length (unstuff 255 ds),
        take (length out) (unstuff 255 ds)
          ++ drop (length (unstuff 255 ds)) out).
Proof.
  intros Hok Hend. split.
  - by apply cobs_decode_cb_blocks.
  - by rewrite cobs_decode_buf_blocks.
Qed.

Lemma decode_blocks_witness :
  Forall (λ d, length d <= 254)%nat [[x11; x00]; []; [x22]]
  /\ ([x00; x07; x08] = [] \/ (exists t, [x00; x07; x08] = x00 :: t))
  /\ (exists tr,
        cobs_decode_cb (wire [[x11; x00]; []; [x22]] ++ [x00; x07; x08])
        = Some (length (unstuff 255 [[x11; x00]; []; [x22]]), tr)
        /\ received tr = unstuff 255 [[x11; x00]; []; [x22]]
        /\ Forall (λ c, dc_left c = 0%nat /\ is_Some (dc_data c)) tr)
  /\ cobs_decode_buf (wire [[x11; x00]; []; [x22]] ++ [x00; x07; x08])
       (replicate 3 xaa)
     = (length (unstuff 255 [[x11; x00]; []; [x22]]),
        take (length (replicate 3 xaa)) (unstuff 255 [[x11; x00]; []; [x22]])
          ++ drop (length (unstuff 255 [[x11; x00]; []; [x22]]))
               (replicate 3 xaa)).
Proof.
  assert (H1 : Forall (λ d, length d <= 254)%nat [[x11; x00]; []; [x22]])
    by (repeat (apply Forall_cons_2; [simpl; lia|]); apply Forall_nil_2).
  assert (H2 : [x00; x07; x08] = [] \/ (exists t, [x00; x07; x08] = x00 :: t))
    by (right; by eexists).
  split; [exact H1|]. split; [exact H2|].
  exact (decode_blocks [[x11; x00]; []; [x22]] [x00; x07; x08]
           (replicate 3 xaa) H1 H2).
Defined.

(** X5. Truncation by the bounded-buffer decoder. Whatever the capacity,
    decoding the frame of a payload, with or without its delimiter,
    returns the payload length; the buffer receives the payload as far as
    it fits and keeps its other bytes. *)
Theorem decode_buf_any_capacity (P out : list byte) (delim : bool) :
  cobs_decode_buf
    (sunk (snd (cobs_encode_cb P)) ++ (if delim then [x00] else [])) out
  = (length P, take (length out) P ++ drop (length P) out).
Proof.
  rewrite cobs_frame, cobs_decode_buf_blocks.
  - by rewrite unstuff_cobs.
  - apply blocks_short.
  - destruct delim; [right; by eexists | by left].
Qed.

(** X6. The bounded-buffer decoder on truncated input. After complete
    blocks whose data bytes may have any value, when a code byte declares
    more data bytes than remain in the input, the bounded-buffer decoder
    returns 0, whatever the capacity. *)
Theorem decode_buf_truncated_zero (ds : list (list byte)) (c : byte)
    (data out : list byte) :
  Forall (λ d, length d <= 254)%nat ds ->
  Z.of_nat (length data) < u8 c - 1 ->
  fst (cobs_decode_buf (wire ds ++ c :: data) out) = 0%nat.
Proof. apply cobs_decode_buf_short_block. Qed.

Lemma decode_buf_truncated_zero_witness :
  Forall (λ d, length d <= 254)%nat [[x00; x11]]
  /\ Z.of_nat (length [x22]) < u8 x05 - 1
  /\ wire [[x00; x11]] ++ x05 :: [x22] = [x03; x00; x11; x05; x22]
  /\ fst (cobs_decode_buf (wire [[x00; x11]] ++ x05 :: [x22]) (replicate 8 x00))
     = 0%nat.
Proof.
  assert (H1 : Forall (λ d, length d <= 254)%nat [[x00; x11]])
    by (apply Forall_cons_2; [simpl; lia|apply Forall_nil_2]).
  assert (H2 : Z.of_nat (length [x22]) < u8 x05 - 1)
    by (vm_compute; reflexivity).
  split; [exact H1|]. split; [exact H2|]. split; [reflexivity|].
  exact (decode_buf_truncated_zero [[x00; x11]] x05 [x22] (replicate 8 x00) H1 H2).
Defined.

(** X7. The sink decoder on truncated input. After complete blocks, a code
    byte [c] and fewer data bytes than it declares, the sink decoder has
    passed on every byte present. The count it is left with is [c - 1] when
    no data byte of the last block is present, and one less than the number
    of absent bytes otherwise; if that count is zero it returns the length
    decoded, otherwise it calls the sink with [(nullptr, 0, count)] and
    returns 0. *)
Theorem decode_cb_truncated (ds : list (list byte)) (c : byte)
    (data : list byte) :
  Forall (λ d, length d <= 254)%nat ds ->
  Z.of_nat (length data) < u8 c - 1 ->
  let count := match data with
               | [] => u8 c - 1
               | _ => u8 c - 1 - Z.of_nat (length data) - 1
               end in
  exists tr,
    received tr = unstuff 255 (ds ++ [data])
    /\ Forall (λ c, dc_left c = 0%nat /\ is_Some (dc_data c)) tr
    /\ cobs_decode_cb (wire ds ++ c :: data)
       = if count =? 0 then Some (length (received tr), tr)
         else Some (0%nat, tr ++ [DecCall None 0 (Z.to_nat count)]).
Proof.
  intros Hok Hlt count.
  destruct (cobs_decode_cb_truncated ds c data Hok Hlt) as (tr & Hr & Hf & E).
  exists tr. split; [done|]. split; [done|].
  rewrite E. unfold reported, count. destruct data; [|done].
  simpl. by rewrite Z.sub_0_r.
Qed.

Lemma decode_cb_truncated_witness :
  Forall (λ d, length d <= 254)%nat [[x11]]
  /\ Z.of_nat (length [x22; x33]) < u8 x05 - 1
  /\ exists tr,
       received tr = unstuff 255 ([[x11]] ++ [[x22; x33]])
       /\ Forall (λ c, dc_left c = 0%nat /\ is_Some (dc_data c)) tr
       /\ cobs_decode_cb (wire [[x11]] ++ x05 :: [x22; x33])
          = if u8 x05 - 1 - Z.of_nat (length [x22; x33]) - 1 =? 0
            then Some (length (received tr), tr)
            else Some (0%nat,
                       tr ++ [DecCall None 0
                                (Z.to_nat (u8 x05 - 1
                                           - Z.of_nat (length [x22; x33]) - 1))]).
Proof.
  assert (H1 : Forall (λ d, length d <= 254)%nat [[x11]])
    by (apply Forall_cons_2; [simpl; lia|apply Forall_nil_2]).
  assert (H2 : Z.of_nat (length [x22; x33]) < u8 x05 - 1)
    by (vm_compute; reflexivity).
  split; [exact H1|]. split; [exact H2|].
  exact (decode_cb_truncated [[x11]] x05 [x22; x33] H1 H2).
Defined.

Lemma emit_Some_inv {A} c (r : option (A * list dec_call)) a tr :
  emit c r = Some (a, tr) -> exists tr0, r = Some (a, tr0) /\ tr = c :: tr0.
Proof.
  destruct r as [[a0 tr0]|]; [|done]. cbn. intros [= -> <-]. by exists tr0.
Qed.

(** The sink decoder hands on no more bytes than it consumes, and counts
    them in [total]. *)
Lemma decode_loop_bound fuel : ∀ rest code block total block' total' tr,
  decode_loop fuel rest code block total = Some ((block', total'), tr) ->
  total' = (total + length (received tr))%nat
  /\ (length (received tr) <= length rest)%nat.
Proof.
  induction fuel as [|fuel IH]; intros rest code block total block' total' tr E;
    [done|].
  destruct rest as [|b rest].
  { cbn in E. injection E as <- <- <-. simpl. lia. }
  cbn [decode_loop] in E. destruct (negb (block =? 0)).
  - set (chunk := if block <? Z.of_nat (length (b :: rest))
                  then Z.to_nat block else length (b :: rest)) in *.
    assert (Hc : (chunk <= length (b :: rest))%nat).
    { unfold chunk. destruct (Z.ltb_spec block (Z.of_nat (length (b :: rest)))); lia. }
    destruct (negb (chunk =? 0)%nat).
    + apply emit_Some_inv in E as (tr0 & E & ->).
      apply IH in E as [-> Hb]. rewrite received_cons. cbn [dc_data default].
      unfold id. rewrite length_app, length_take. rewrite length_drop in Hb. lia.
    + apply IH in E. done.
  - assert (Hr : ∀ t tr0,
      (if u8 b =? 0 then Some (u8 b, t, [])
       else decode_loop fuel rest (u8 b)
              (if negb (u8 b =? 0) then wrap8 (u8 b - 1) else u8 b) t)
      = Some ((block', total'), tr0) ->
      total' = (t + length (received tr0))%nat
      /\ (length (received tr0) <= length rest)%nat).
    { intros t tr0 E0. destruct (u8 b =? 0).
      - injection E0 as <- <- <-. simpl. lia.
      - by apply IH in E0. }
    destruct (negb (u8 b =? 0) && negb (code =? 255)).
    + apply emit_Some_inv in E as (tr0 & E & ->).
      apply Hr in E as [-> Hb]. rewrite received_cons. simpl. lia.
    + apply Hr in E as [-> Hb]. simpl. lia.
Qed.

Lemma decode_buf_loop_bound rest : ∀ dst_end out dst code block required,
  (snd (decode_buf_loop dst_end rest out dst code block required)
   <= required + length rest)%nat.
Proof.
  induction rest as [|b rest IH]; intros dst_end out dst code block required.
  - simpl. lia.
  - cbn [decode_buf_loop]. destruct (negb (block =? 0)).
    + etransitivity; [apply IH|]. simpl. lia.
    + destruct (negb (u8 b =? 0) && negb (code =? 255));
        (destruct (u8 b =? 0); [simpl; lia|]);
        (etransitivity; [apply IH|]); simpl; lia.
Qed.

(** X8. Decoding never grows the data. On every input the loop of the sink
    decoder comes to an end; the size it returns and the number of bytes
    it passes to the sink are at most the length of the input, and so is
    the size the bounded-buffer decoder returns: an output buffer as long
    as the input is always large enough. *)
Theorem decode_size_bound (inp out : list byte) :
  (exists n tr,
     cobs_decode_cb inp = Some (n, tr)
     /\ (n <= length (received tr) <= length inp)%nat)
  /\ (fst (cobs_decode_buf inp out) <= length inp)%nat.
Proof.
  split.
  - destruct (decode_loop_total (S (length inp)) inp 255 0 0)
      as [[[block total] tr] E]; [lia|lia|].
    pose proof (decode_loop_bound _ _ _ _ _ _ _ _ E) as [Ht Hb].
    unfold cobs_decode_cb. rewrite E. cbn [mbind option_bind].
    destruct (negb (block =? 0)).
    + eexists _, _. split; [reflexivity|].
      rewrite received_app. simpl. rewrite app_nil_r. lia.
    + eexists _, _. split; [reflexivity|]. lia.
  - unfold cobs_decode_buf.
    pose proof (decode_buf_loop_bound inp (length out) out 0 255 0 0) as Hb.
    destruct (decode_buf_loop (length out) inp out 0 255 0 0) as [[o blk'] r].
    cbn [fst snd] in *. destruct (negb (blk' =? 0)); simpl; lia.
Qed.

(** Every call made inside the loop of the sink decoder carries data, as
    many bytes as it says, and reports nothing missing; [block] stays a
    [uint8_t]. *)
Lemma decode_loop_calls fuel : ∀ rest code block total block' total' tr,
  0 <= block < 256 ->
  decode_loop fuel rest code block total = Some ((block', total'), tr) ->
  Forall data_call tr /\ 0 <= block' < 256.
Proof.
  induction fuel as [|fuel IH]; intros rest code block total block' total' tr Hb E;
    [done|].
  destruct rest as [|b rest].
  { cbn in E. injection E as <- <- <-. split; [apply Forall_nil_2|done]. }
  cbn [decode_loop] in E. destruct (negb (block =? 0)).
  - set (chunk := if block <? Z.of_nat (length (b :: rest))
                  then Z.to_nat block else length (b :: rest)) in *.
    assert (Hc : (chunk <= length (b :: rest))%nat).
    { unfold chunk. destruct (Z.ltb_spec block (Z.of_nat (length (b :: rest)))); lia. }
    destruct (negb (chunk =? 0)%nat).
    + apply emit_Some_inv in E as (tr0 & E & ->).
      apply IH in E as [Hf Hb'].
      2:{ destruct (negb (wrap8 (block - Z.of_nat chunk) =? 0)); apply wrap8_range. }
      split; [|done]. apply Forall_cons_2; [|done].
      split; [done|]. eexists. split; [reflexivity|].
      simpl dc_size. rewrite length_take. lia.
    + apply IH in E; [done|]. apply wrap8_range.
  - pose proof (u8_range b) as Hu.
    assert (Hr : ∀ t tr0,
      (if u8 b =? 0 then Some (u8 b, t, [])
       else decode_loop fuel rest (u8 b)
              (if negb (u8 b =? 0) then wrap8 (u8 b - 1) else u8 b) t)
      = Some ((block', total'), tr0) ->
      Forall data_call tr0 /\ 0 <= block' < 256).
    { intros t tr0 E0. destruct (u8 b =? 0).
      - injection E0 as <- <- <-. split; [apply Forall_nil_2|done].
      - apply IH in E0; [done|]. cbn [negb]. apply wrap8_range. }
    destruct (negb (u8 b =? 0) && negb (code =? 255)).
    + apply emit_Some_inv in E as (tr0 & E & ->).
      apply Hr in E as [Hf Hb']. split; [|done].
      apply Forall_cons_2; [|done]. apply (data_call_intro [x00]).
    + by apply Hr in E.
Qed.

(** X17. The return channel of the sink decoder. On every input the sink
    decoder ends in one of two ways. Either every call carried data and
    reported nothing missing, and the function returns the number of bytes
    passed to the sink; or such calls are followed by one last call
    [(nullptr, 0, m)] with [0 < m < 256], and the function returns 0. *)
Theorem decode_cb_outcome (inp : list byte) :
  exists n tr,
    cobs_decode_cb inp = Some (n, tr)
    /\ ((Forall data_call tr /\ n = length (received tr))
        \/ (exists tr0 m,
              tr = tr0 ++ [DecCall None 0 m]
              /\ Forall data_call tr0
              /\ (0 < m < 256)%nat /\ n = 0%nat)).
Proof.
  destruct (decode_loop_total (S (length inp)) inp 255 0 0)
    as [[[block total] tr] E]; [lia|lia|].
  pose proof (decode_loop_bound _ _ _ _ _ _ _ _ E) as [Ht _].
  pose proof (decode_loop_calls _ _ _ 0 _ _ _ _ ltac:(lia) E) as [Hf Hb].
  unfold cobs_decode_cb. rewrite E. cbn [mbind option_bind].
  destruct (block =? 0) eqn:Ez; cbn [negb].
  - exists total, tr. split; [done|]. left. split; [done|]. lia.
  - apply Z.eqb_neq in Ez. eexists 0%nat, _. split; [reflexivity|].
    right. exists tr, (Z.to_nat block). split; [done|]. split; [done|].
    split; [lia|done].
Qed.

(** ** The two bulk decoders side by side *)

(** Copying at most as many data bytes as the block still expects. *)
Lemma decode_buf_copy d : ∀ X out0 M dst code k required,
  Z.of_nat (length d) <= k < 256 ->
  sat (length out0) dst (length M) ->
  exists dst',
    decode_buf_loop (length out0) (d ++ X) (overlay M out0) dst code k required
    = decode_buf_loop (length out0) X (overlay (M ++ d) out0) dst' code
        (k - Z.of_nat (length d)) (required + length d)%nat
    /\ sat (length out0) dst' (length (M ++ d)).
Proof.
  induction d as [|b d IH]; intros X out0 M dst code k required Hk Hsat.
  - exists dst. simpl. by rewrite !app_nil_r, Nat.add_0_r, Z.sub_0_r.
  - simpl length in Hk.
    destruct (IH X out0 (M ++ [b]) (advance_if (length out0) dst) code (k - 1)
                (S required)) as (dst' & E & Hsat'); [lia| |].
    { rewrite length_app. simpl. rewrite Nat.add_1_r. by apply sat_advance. }
    exists dst'. rewrite <- app_assoc in E, Hsat'. split; [|done].
    cbn [app decode_buf_loop]. z_ne k 0. cbn [negb].
    rewrite overlay_snoc by done. rewrite wrap8_small by lia.
    rewrite E. cbn [app]. f_equal; simpl length; lia.
Qed.

(** From any state, the bounded-buffer loop stores what the sink loop
    hands on; its [block] at the end is that of the sink loop, or one more
    when the input ended inside a block. *)
Lemma decode_loops_agree fuel : ∀ rest code block total out0 M dst block' total' tr,
  0 <= block < 256 ->
  sat (length out0) dst (length M) ->
  decode_loop fuel rest code block total = Some ((block', total'), tr) ->
  exists b'',
    decode_buf_loop (length out0) rest (overlay M out0) dst code block (length M)
    = (overlay (M ++ received tr) out0, b'',
       (length M + length (received tr))%nat)
    /\ (b'' = block' \/ b'' = block' + 1).
Proof.
  induction fuel as [|fuel IH];
    intros rest code block total out0 M dst block' total' tr Hb Hsat E; [done|].
  destruct rest as [|b rest].
  { cbn in E. injection E as <- <- <-. exists block. simpl.
    rewrite app_nil_r, Nat.add_0_r. split; [done|by left]. }
  cbn [decode_loop] in E. destruct (block =? 0) eqn:Ez; cbn [negb] in E.
  - (* a code byte *)
    apply Z.eqb_eq in Ez. subst block. pose proof (u8_range b) as Hu.
    cbn [decode_buf_loop]. change (0 =? 0) with true. cbn [negb].
    destruct (u8 b =? 0) eqn:Eb; cbn [negb andb] in *.
    + injection E as <- <- <-. exists (u8 b). simpl.
      rewrite app_nil_r, Nat.add_0_r. split; [done|by left].
    + destruct (negb (code =? 255)).
      * apply emit_Some_inv in E as (tr0 & E & ->).
        rewrite overlay_snoc by done.
        replace (S (length M)) with (length (M ++ [x00]))
          by (rewrite length_app; simpl; lia).
        destruct (IH _ _ _ _ out0 (M ++ [x00]) (advance_if (length out0) dst)
                    _ _ _ (wrap8_range _)
                    ltac:(rewrite length_app; simpl; rewrite Nat.add_1_r;
                          by apply sat_advance) E)
          as (b'' & E' & Hb'').
        exists b''. rewrite E'. split; [|done].
        rewrite received_cons. cbn [dc_data default].
        rewrite <- app_assoc, !length_app. simpl. f_equal. lia.
      * destruct (IH _ _ _ _ out0 M dst _ _ _ (wrap8_range _) Hsat E)
          as (b'' & E' & Hb'').
        exists b''. by rewrite E'.
  - (* data bytes *)
    apply Z.eqb_neq in Ez.
    set (R := b :: rest) in *.
    set (chunk := if block <? Z.of_nat (length R)
                  then Z.to_nat block else length R) in *.
    assert (Hc : (1 <= chunk <= length R)%nat /\ Z.of_nat chunk <= block).
    { unfold chunk, R. destruct (Z.ltb_spec block (Z.of_nat (length (b :: rest))));
        simpl in *; lia. }
    assert (Hn : (chunk =? 0)%nat = false) by (apply Nat.eqb_neq; lia).
    rewrite Hn in E. cbn [negb] in E.
    apply emit_Some_inv in E as (tr0 & E & ->).
    rewrite wrap8_small in E by lia.
    assert (Hlen : length (take chunk R) = chunk) by (rewrite length_take; lia).
    destruct (decode_buf_copy (take chunk R) (drop chunk R) out0 M dst code block
                (length M)) as (dst' & Ec & Hsat'); [lia|done|].
    rewrite take_drop, Hlen in Ec. rewrite Ec. clear Ec.
    rewrite received_cons. cbn [dc_data default]. unfold id.
    destruct (block - Z.of_nat chunk =? 0) eqn:E1; cbn [negb] in E.
    + apply Z.eqb_eq in E1. rewrite E1 in E |- *.
      replace (length M + chunk)%nat with (length (M ++ take chunk R))
        by (rewrite length_app; lia).
      destruct (IH _ _ 0 _ out0 (M ++ take chunk R) dst' _ _ _ ltac:(lia) Hsat' E)
        as (b'' & E' & Hb'').
      exists b''. rewrite E'. split; [|done].
      rewrite <- app_assoc, !length_app. f_equal. lia.
    + apply Z.eqb_neq in E1.
      assert (Hall : chunk = length R).
      { unfold chunk in *. destruct (Z.ltb_spec block (Z.of_nat (length R))); lia. }
      rewrite wrap8_small in E by lia.
      rewrite Hall, drop_all in E |- *. rewrite take_ge by lia.
      destruct fuel as [|fuel]; [done|]. cbn in E. injection E as <- <- <-.
      exists (block - Z.of_nat (length R)). cbn [decode_buf_loop received map concat].
      rewrite !app_nil_r. split; [done|]. right. unfold R. simpl length. lia.
Qed.

(** X18. The two bulk decoders agree. On every input the bounded-buffer
    decoder stores, as far as they fit, exactly the bytes that the sink
    decoder passes to its sink, and leaves the rest of the buffer as it
    was; it returns either their number or 0, and it returns 0 whenever the
    sink decoder does. *)
Theorem decoders_agree (inp out : list byte) :
  exists n tr,
    cobs_decode_cb inp = Some (n, tr)
    /\ snd (cobs_decode_buf inp out)
       = take (length out) (received tr) ++ drop (length (received tr)) out
    /\ (fst (cobs_decode_buf inp out) = 0%nat
        \/ fst (cobs_decode_buf inp out) = length (received tr))
    /\ (n = 0%nat -> fst (cobs_decode_buf inp out) = 0%nat).
Proof.
  destruct (decode_loop_total (S (length inp)) inp 255 0 0)
    as [[[block total] tr] E]; [lia|lia|].
  pose proof (decode_loop_bound _ _ _ _ _ _ _ _ E) as [Ht _].
  pose proof (decode_loop_calls _ _ _ 0 _ _ _ _ ltac:(lia) E) as [_ Hb].
  destruct (decode_loops_agree _ _ _ 0 _ out [] 0%nat _ _ _ ltac:(lia)
              (sat_refl _ _) E) as (b'' & E' & Hb'').
  rewrite overlay_nil in E'. cbn [app length Nat.add] in E'.
  unfold cobs_decode_cb, cobs_decode_buf. rewrite E, E'.
  cbn [mbind option_bind].
  destruct (block =? 0) eqn:Ez; cbn [negb].
  - apply Z.eqb_eq in Ez. exists total, tr. split; [done|].
    destruct (b'' =? 0) eqn:Ez'; cbn [negb fst snd].
    + split; [done|]. split; [by right|]. lia.
    + split; [done|]. split; [by left|done].
  - apply Z.eqb_neq in Ez. eexists 0%nat, _. split; [reflexivity|].
    z_ne b'' 0. cbn [negb fst snd].
    rewrite received_app. simpl. rewrite app_nil_r.
    split; [done|]. split; [by left|done].
Qed.
